(** * The watch-and-export pipeline of the agent

  A shallow embedding of
  - [internal/pkg/global/exporter_registry.go]: the exporter registry and
    its delivery goroutine [MessageListener];
  - [pkg/watch/docker_container_test.go]: the two mock Docker adapters and
    the two watcher scenarios they drive.

  Goroutines are modelled by an explicit world (channels, cancelled
  contexts, wait groups, goroutine pool, clock) and a labelled step
  function; the label says which goroutine moves and which ready case its
  [select] commits to. *)

From Stdlib Require Import ZArith Lia DecimalString.
From stdpp Require Import base option list strings gmap.

Local Open Scope string_scope.
Local Open Scope list_scope.
Local Open Scope Z_scope.

(* ===================================================================== *)
(** ** agent/api/v1/model *)
(* ===================================================================== *)

Module Model.

(** Modelled from the spec: the package [agent/api/v1/model] is not part of
    the sources at hand.  The spec gives the Message contract as
    [{kind: enum(Metric,Event), name: string, timestamp, body: opaque}] and
    the three well-known event names. *)
Inductive MessageType := MessageType_metric | MessageType_event.

Record Message := {
  Type_ : MessageType;
  Name : string;
  Timestamp : Z;
  Body : string
}.

Definition AgentNodeUpName : string := "agent.node.up".
Definition AgentNodeRestartName : string := "agent.node.restart".
Definition AgentNodeDownName : string := "agent.node.down".

#[global] Instance MessageType_eq_dec : EqDecision MessageType.
Proof. solve_decision. Defined.

#[global] Instance Message_eq_dec : EqDecision Message.
Proof. solve_decision. Defined.

End Model.

(* ===================================================================== *)
(** ** internal/pkg/global/exporter_registry.go *)
(* ===================================================================== *)

Module Global.
Import Model.

(** *** time.Duration: a count of nanoseconds *)

Definition Nanosecond : Z := 1.
Definition Microsecond : Z := 1000 * Nanosecond.
Definition Millisecond : Z := 1000 * Microsecond.
Definition Second : Z := 1000 * Millisecond.

(** [var DefaultExporterTimeout = 5 * time.Second] *)
Definition DefaultExporterTimeout : Z := 5 * Second.

(** *** Values travelling on a [chan interface{}]

    The dynamic type decides the outcome of the type assertion in
    [MessageListener]; the payload matters only for [*model.Message]. *)
Inductive Item :=
| INil                                  (* the nil interface value *)
| IMessagePtr (p : option Message)      (* *model.Message, [None] a nil pointer *)
| IMessageVal (m : Message)             (* model.Message, by value *)
| IOther (tyname : string).             (* any other dynamic type, named as %T prints it *)

#[global] Instance Item_eq_dec : EqDecision Item.
Proof. solve_decision. Defined.

(** [message, ok := m.( *model.Message )]: the assertion to the pointer type. *)
Definition assert_MessagePtr (m : Item) : option Message * bool :=
  match m with
  | IMessagePtr p => (p, true)
  | _ => (None, false)
  end.

(** [got.(model.Message)], the assertion the watcher tests apply to what a
    subscriber receives. *)
Definition assert_MessageVal (m : Item) : option Message * bool :=
  match m with
  | IMessageVal v => (Some v, true)
  | _ => (None, false)
  end.

(** The verb [%T] of the warning. *)
Definition fmt_T (m : Item) : string :=
  match m with
  | INil => "<nil>"
  | IMessagePtr _ => "*model.Message"
  | IMessageVal _ => "model.Message"
  | IOther n => n
  end.

Definition warn_text (m : Item) : string :=
  ("Unexpected type " ++ fmt_T m ++ ", skipping item")%string.

(** *** Exporters, handlers, the registry

    An [Exporter] is an interface value implemented elsewhere; a channel is
    a reference.  Both are identified by a number, so that registering the
    same exporter or the same channel twice is visible as aliasing. *)
Abbreviation ExporterRef := nat (only parsing).
Abbreviation ChanRef := nat (only parsing).
Abbreviation WaitGroupRef := nat (only parsing).

Record ExporterHandler := {
  exporter : ExporterRef;
  subscriptionCh : ChanRef
}.

#[global] Instance ExporterHandler_eq_dec : EqDecision ExporterHandler.
Proof. solve_decision. Defined.

Record ExporterRegisterer := {
  handlers : list ExporterHandler
}.

(** [error]: [None] is nil. *)
Definition error := option string.

(** [DefaultExporterRegisterer = new(ExporterRegisterer)] *)
Definition DefaultExporterRegisterer : ExporterRegisterer :=
  {| handlers := [] |}.

(** [func (e *ExporterRegisterer) Register(exporter, subCh) error] *)
Definition Register (e : ExporterRegisterer) (exp : ExporterRef) (subCh : ChanRef)
  : ExporterRegisterer * error :=
  ({| handlers := handlers e ++ [ {| exporter := exp; subscriptionCh := subCh |} ] |},
   None).

(** *** Contexts

    A context value carries its parent, as Go's [cancelCtx] and [timerCtx] do.
    Identifiers come from two name spaces: [Ext] for the scopes the process
    creates and hands to [Start], [Own] for the children the listeners derive,
    so that a derived child never aliases a scope of the caller. *)
Inductive CtxId := Ext (n : nat) | Own (n : nat).

#[global] Instance CtxId_eq_dec : EqDecision CtxId.
Proof. solve_decision. Defined.

#[global] Instance CtxId_countable : Countable CtxId.
Proof.
  refine (inj_countable'
            (λ i, match i with Ext n => inl n | Own n => inr n end)
            (λ s, match s with inl n => Ext n | inr n => Own n end) _).
  by intros [].
Defined.

Inductive Context :=
| Background
| cancelCtx (id : CtxId) (parent : Context)
| timerCtx (id : CtxId) (deadline : Z) (parent : Context).

#[global] Instance Context_eq_dec : EqDecision Context.
Proof. solve_decision. Defined.

(** [ctx.Deadline()] *)
Fixpoint Deadline (c : Context) : option Z :=
  match c with
  | Background => None
  | cancelCtx _ p => Deadline p
  | timerCtx _ d _ => Some d
  end.

(** Is every identifier of the chain one of the caller's? *)
Fixpoint external (c : Context) : bool :=
  match c with
  | Background => true
  | cancelCtx (Ext _) p | timerCtx (Ext _) _ p => external p
  | _ => false
  end.


(** *** Goroutines running [MessageListener] *)

Inductive PC :=
| AtSelect                                               (* blocked in [select] *)
| InHandleMessage (ctx : Context) (message : option Message)  (* inside [e.HandleMessage] *)
| Exited.                                                (* returned; [wg.Done] ran *)

(** The four arguments of [MessageListener(ctx, wg, ch, e)] and where the
    goroutine stands. *)
Record Goroutine := {
  g_ctx : Context;
  g_wg : WaitGroupRef;
  g_ch : ChanRef;
  g_e : ExporterRef;
  g_pc : PC
}.

Definition g_handler (l : Goroutine) : ExporterHandler :=
  {| exporter := g_e l; subscriptionCh := g_ch l |}.

Definition at_pc (l : Goroutine) (pc : PC) : Goroutine :=
  {| g_ctx := g_ctx l; g_wg := g_wg l; g_ch := g_ch l; g_e := g_e l; g_pc := pc |}.

(** *** Observable actions, in the order they happen *)
Inductive Action :=
| ASend (ch : ChanRef) (x : Item)
| ACancelScope (n : nat)
| AWgAdd (wg : WaitGroupRef) (delta : Z)
| AGo (g : nat) (h : ExporterHandler)
| ARecv (g : nat) (ch : ChanRef) (x : Item)
| AWarn (g : nat) (text : string)
| AInfo (g : nat) (text : string)
| AWithTimeout (g : nat) (parent child : Context)
| AHandleMessage (g : nat) (h : ExporterHandler) (ctx : Context) (message : option Message)
| AHandleReturn (g : nat) (h : ExporterHandler)
| ACancel (g : nat) (ctx : Context)
| AWgDone (g : nat) (wg : WaitGroupRef).

(** *** The world the goroutines share *)
Record World := {
  registry : ExporterRegisterer;
  now : Z;                                (* the clock, in nanoseconds *)
  cancelled : gset CtxId;                 (* contexts whose cancel function ran *)
  next_id : nat;                          (* next [Own] identifier *)
  chans : gmap ChanRef (list Item);       (* items queued on each channel *)
  wgs : gmap WaitGroupRef Z;              (* WaitGroup counters *)
  goroutines : list Goroutine;
  trace : list Action
}.

Definition init : World :=
  {| registry := DefaultExporterRegisterer; now := 0; cancelled := ∅; next_id := 0;
     chans := ∅; wgs := ∅; goroutines := []; trace := [] |}.

Definition chan (w : World) (ch : ChanRef) : list Item := default [] (chans w !! ch).
Definition wg_counter (w : World) (r : WaitGroupRef) : Z := default 0 (wgs w !! r).

Definition emit (a : list Action) (w : World) : World :=
  {| registry := registry w; now := now w; cancelled := cancelled w; next_id := next_id w;
     chans := chans w; wgs := wgs w; goroutines := goroutines w; trace := trace w ++ a |}.

Definition set_registry (r : ExporterRegisterer) (w : World) : World :=
  {| registry := r; now := now w; cancelled := cancelled w; next_id := next_id w;
     chans := chans w; wgs := wgs w; goroutines := goroutines w; trace := trace w |}.

Definition advance (d : Z) (w : World) : World :=
  {| registry := registry w; now := now w + d; cancelled := cancelled w; next_id := next_id w;
     chans := chans w; wgs := wgs w; goroutines := goroutines w; trace := trace w |}.

Definition mark_cancelled (id : CtxId) (w : World) : World :=
  {| registry := registry w; now := now w; cancelled := {[ id ]} ∪ cancelled w;
     next_id := next_id w;
     chans := chans w; wgs := wgs w; goroutines := goroutines w; trace := trace w |}.

Definition bump_id (w : World) : World :=
  {| registry := registry w; now := now w; cancelled := cancelled w; next_id := S (next_id w);
     chans := chans w; wgs := wgs w; goroutines := goroutines w; trace := trace w |}.

Definition set_chan (ch : ChanRef) (q : list Item) (w : World) : World :=
  {| registry := registry w; now := now w; cancelled := cancelled w; next_id := next_id w;
     chans := <[ ch := q ]> (chans w); wgs := wgs w; goroutines := goroutines w;
     trace := trace w |}.

Definition set_wg (r : WaitGroupRef) (v : Z) (w : World) : World :=
  {| registry := registry w; now := now w; cancelled := cancelled w; next_id := next_id w;
     chans := chans w; wgs := <[ r := v ]> (wgs w); goroutines := goroutines w;
     trace := trace w |}.

Definition set_goroutine (g : nat) (l : Goroutine) (w : World) : World :=
  {| registry := registry w; now := now w; cancelled := cancelled w; next_id := next_id w;
     chans := chans w; wgs := wgs w; goroutines := <[ g := l ]> (goroutines w);
     trace := trace w |}.

Definition spawn (l : Goroutine) (w : World) : World :=
  {| registry := registry w; now := now w; cancelled := cancelled w; next_id := next_id w;
     chans := chans w; wgs := wgs w; goroutines := goroutines w ++ [l];
     trace := trace w |}.

(** [<-ctx.Done()] can proceed: the context or an ancestor was cancelled, or
    a deadline on the chain has passed. *)
Fixpoint Done (w : World) (c : Context) : bool :=
  match c with
  | Background => false
  | cancelCtx id p => bool_decide (id ∈ cancelled w) || Done w p
  | timerCtx id d p => bool_decide (id ∈ cancelled w) || (d <=? now w) || Done w p
  end.

(** [context.WithDeadline(parent, d)]: when the parent's deadline is already
    sooner the child is a plain cancellable child of it. *)
Definition derive (parent : Context) (d : Z) (id : CtxId) : Context :=
  match Deadline parent with
  | Some cur => if cur <? d then cancelCtx id parent else timerCtx id d parent
  | None => timerCtx id d parent
  end.

Definition WithDeadline (parent : Context) (d : Z) (w : World) : Context * World :=
  (derive parent d (Own (next_id w)), bump_id w).

(** [context.WithTimeout(parent, timeout)] *)
Definition WithTimeout (parent : Context) (timeout : Z) (w : World) : Context * World :=
  WithDeadline parent (now w + timeout) w.

(** The [cancel] function returned with the child [c]. *)
Definition cancel (c : Context) (w : World) : World :=
  match c with
  | Background => w
  | cancelCtx id _ | timerCtx id _ _ => mark_cancelled id w
  end.

(** [wg.Add(delta)]; a counter driven below zero panics ([None]). *)
Definition WgAdd (r : WaitGroupRef) (delta : Z) (w : World) : option World :=
  let v := wg_counter w r + delta in
  if v <? 0 then None else Some (set_wg r v w).

(** [wg.Wait()] returns exactly when the counter is zero. *)
Definition WgWaitReturns (r : WaitGroupRef) (w : World) : bool := wg_counter w r =? 0.

(** *** [MessageListener]

    One loop iteration is a [select]; the scheduler label says which ready
    case it commits to.  The body of each case follows the source. *)

(** [case m := <-ch:] up to and including the call of [e.HandleMessage],
    which stays in flight until the handler returns. *)
Definition listener_recv (g : nat) (l : Goroutine) (m : Item) (rest : list Item)
    (w : World) : World :=
  let w := emit [ARecv g (g_ch l) m] (set_chan (g_ch l) rest w) in
  let '(message, ok) := assert_MessagePtr m in
  if negb ok then
    (* zap.S().Warnf("Unexpected type %T, skipping item", m); continue *)
    emit [AWarn g (warn_text m)] w
  else
    (* ctx, cancel := context.WithTimeout(ctx, DefaultExporterTimeout) *)
    let '(ctx, w) := WithTimeout (g_ctx l) DefaultExporterTimeout w in
    let w := emit [AWithTimeout g (g_ctx l) ctx] w in
    (* e.HandleMessage(ctx, message) *)
    set_goroutine g (at_pc l (InHandleMessage ctx message))
      (emit [AHandleMessage g (g_handler l) ctx message] w).

(** The handler has returned: [cancel()], then back to the [select]. *)
Definition listener_return (g : nat) (l : Goroutine) (ctx : Context) (w : World) : World :=
  let w := emit [AHandleReturn g (g_handler l)] w in
  let w := emit [ACancel g ctx] (cancel ctx w) in
  set_goroutine g (at_pc l AtSelect) w.

(** [case <-ctx.Done():] log, return, and the deferred [wg.Done()]. *)
Definition listener_done (g : nat) (l : Goroutine) (w : World) : option World :=
  let w := emit [AInfo g "exiting listener"] w in
  w ← WgAdd (g_wg l) (-1) w;
  Some (set_goroutine g (at_pc l Exited) (emit [AWgDone g (g_wg l)] w)).

(** *** [Start]

    [for i := range e.handlers { wg.Add(1); go func(e ExporterHandler) {...}(e.handlers[i]) }] *)
Definition listener_of (ctx : Context) (wg : WaitGroupRef) (h : ExporterHandler) : Goroutine :=
  {| g_ctx := ctx; g_wg := wg; g_ch := subscriptionCh h; g_e := exporter h;
     g_pc := AtSelect |}.

Definition start_handler (ctx : Context) (wg : WaitGroupRef) (h : ExporterHandler)
    (w : World) : option World :=
  w ← WgAdd wg 1 w;
  let w := emit [AWgAdd wg 1] w in
  let g := length (goroutines w) in
  Some (emit [AGo g h] (spawn (listener_of ctx wg h) w)).

Fixpoint start_range (ctx : Context) (wg : WaitGroupRef) (hs : list ExporterHandler)
    (w : World) : option World :=
  match hs with
  | [] => Some w
  | h :: hs' => w ← start_handler ctx wg h w; start_range ctx wg hs' w
  end.

(** [func (e *ExporterRegisterer) Start(ctx, wg) error] *)
Definition Start (ctx : Context) (wg : WaitGroupRef) (w : World) : option (World * error) :=
  w ← start_range ctx wg (handlers (registry w)) w;
  Some (w, None).

(** *** Scheduler and environment labels *)
Inductive Event :=
| ETick (d : Z)                                 (* time passes *)
| ESend (ch : ChanRef) (x : Item)               (* a producer's send completes *)
| ECancel (n : nat)                             (* the owner of scope [Ext n] cancels it *)
| ERegister (exp : ExporterRef) (subCh : ChanRef)
| EStart (ctx : Context) (wg : WaitGroupRef)
| ESelectRecv (g : nat)                         (* goroutine g: select takes [<-ch] *)
| ESelectDone (g : nat)                         (* goroutine g: select takes [<-ctx.Done()] *)
| EReturn (g : nat).                            (* goroutine g: HandleMessage returns *)

(** One step; [None] when the label is not enabled (a blocked case, a
    goroutine that is elsewhere) or the process panics. *)
Definition step (ev : Event) (w : World) : option World :=
  match ev with
  | ETick d => if d <? 0 then None else Some (advance d w)
  | ESend ch x => Some (emit [ASend ch x] (set_chan ch (chan w ch ++ [x]) w))
  | ECancel n => Some (emit [ACancelScope n] (mark_cancelled (Ext n) w))
  | ERegister exp subCh => Some (set_registry (fst (Register (registry w) exp subCh)) w)
  | EStart ctx wg => if external ctx then fst <$> Start ctx wg w else None
  | ESelectRecv g =>
      l ← goroutines w !! g;
      match g_pc l, chan w (g_ch l) with
      | AtSelect, m :: rest => Some (listener_recv g l m rest w)
      | _, _ => None
      end
  | ESelectDone g =>
      l ← goroutines w !! g;
      match g_pc l with
      | AtSelect => if Done w (g_ctx l) then listener_done g l w else None
      | _ => None
      end
  | EReturn g =>
      l ← goroutines w !! g;
      match g_pc l with
      | InHandleMessage ctx _ => Some (listener_return g l ctx w)
      | _ => None
      end
  end.

Fixpoint run (evs : list Event) (w : World) : option World :=
  match evs with
  | [] => Some w
  | ev :: evs' => w ← step ev w; run evs' w
  end.

Inductive Reachable : World → Prop :=
| Reachable_init : Reachable init
| Reachable_step w ev w' : Reachable w → step ev w = Some w' → Reachable w'.

(** *** What a trace shows *)

(** Items sent on [ch], in order. *)
Definition sent (ch : ChanRef) (tr : list Action) : list Item :=
  omap (λ a, match a with
             | ASend c x => if decide (c = ch) then Some x else None
             | _ => None
             end) tr.

(** Items received from [ch] by any goroutine, in order. *)
Definition received (ch : ChanRef) (tr : list Action) : list Item :=
  omap (λ a, match a with
             | ARecv _ c x => if decide (c = ch) then Some x else None
             | _ => None
             end) tr.

(** Arguments of the [HandleMessage] calls made for the pair [h], in order. *)
Definition delivered (h : ExporterHandler) (tr : list Action) : list (option Message) :=
  omap (λ a, match a with
             | AHandleMessage _ h' _ p => if decide (h' = h) then Some p else None
             | _ => None
             end) tr.

(** Arguments of the [HandleMessage] calls made on exporter [e], in order. *)
Definition delivered_to (e : ExporterRef) (tr : list Action) : list (option Message) :=
  omap (λ a, match a with
             | AHandleMessage _ h' _ p => if decide (exporter h' = e) then Some p else None
             | _ => None
             end) tr.

(** Arguments of the [HandleMessage] calls fed from channel [ch], in order. *)
Definition delivered_from (ch : ChanRef) (tr : list Action) : list (option Message) :=
  omap (λ a, match a with
             | AHandleMessage _ h' _ p =>
                 if decide (subscriptionCh h' = ch) then Some p else None
             | _ => None
             end) tr.

Definition returns_of (e : ExporterRef) (tr : list Action) : list nat :=
  omap (λ a, match a with
             | AHandleReturn g h' => if decide (exporter h' = e) then Some g else None
             | _ => None
             end) tr.

(** The well-formed payloads among some items. *)
Definition pointers (xs : list Item) : list (option Message) :=
  omap (λ x, match x with IMessagePtr p => Some p | _ => None end) xs.

(** [HandleMessage] calls on [e] begun and not yet returned. *)
Definition in_flight (e : ExporterRef) (tr : list Action) : Z :=
  Z.of_nat (length (delivered_to e tr)) - Z.of_nat (length (returns_of e tr)).

Definition serving (e : ExporterRef) (l : Goroutine) : bool := bool_decide (g_e l = e).

Definition calling (e : ExporterRef) (l : Goroutine) : bool :=
  match g_pc l with
  | InHandleMessage _ _ => bool_decide (g_e l = e)
  | _ => false
  end.

Definition running_on (r : WaitGroupRef) (l : Goroutine) : bool :=
  match g_pc l with
  | Exited => false
  | _ => bool_decide (g_wg l = r)
  end.

(** Arguments of the [HandleMessage] calls made by goroutine [g], in order. *)
Definition calls_by (g : nat) (tr : list Action) : list (option Message) :=
  omap (λ a, match a with
             | AHandleMessage g' _ _ p => if decide (g' = g) then Some p else None
             | _ => None
             end) tr.

(** What [Start] adds to the trace: for each pair the [Add] and then the
    [go] statement, [g] being the index of the first goroutine spawned. *)
Fixpoint start_actions (wg : WaitGroupRef) (g : nat) (hs : list ExporterHandler)
    : list Action :=
  match hs with
  | [] => []
  | h :: hs' => AWgAdd wg 1 :: AGo g h :: start_actions wg (S g) hs'
  end.



(** How many times a schedule calls [Start]. *)
Fixpoint starts (evs : list Event) : nat :=
  match evs with
  | [] => 0%nat
  | EStart _ _ :: evs' => S (starts evs')
  | _ :: evs' => starts evs'
  end.

(** How many registered pairs name exporter [e]. *)
Definition pairs_of (e : ExporterRef) (hs : list ExporterHandler) : nat :=
  length (filter (λ h, exporter h = e) hs).


Definition no_return (g : nat) (evs : list Event) : Prop :=
  Forall (λ ev, ev ≠ EReturn g) evs.

Definition malformed (x : Item) : Prop := snd (assert_MessagePtr x) = false.

Definition by_value (x : Item) : Prop := snd (assert_MessageVal x) = true.

(** *** Sample schedules, on which the statements below are exercised *)

Definition sample_message : Message :=
  {| Type_ := MessageType_event; Name := AgentNodeUpName; Timestamp := 0; Body := "" |}.

Definition root_scope : Context := cancelCtx (Ext 0) Background.

(** The world a schedule leads to from [init]. *)
Definition world_after (evs : list Event) : World := default init (run evs init).

(** One pair registered, then [Start]. *)
Definition sched_started : list Event := [ERegister 7 3; EStart root_scope 0].

(** ... then a well-formed message is sent. *)
Definition sched_pointer : list Event :=
  sched_started ++ [ESend 3 (IMessagePtr (Some sample_message))].

(** ... or a message by value followed by a well-formed one. *)
Definition sched_value_then_pointer : list Event :=
  sched_started ++ [ESend 3 (IMessageVal sample_message);
                    ESend 3 (IMessagePtr (Some sample_message))].


(** The same exporter registered with two channels; both listeners are
    inside its [HandleMessage] at once. *)
Definition sched_same_exporter_twice : list Event :=
  [ERegister 7 3; ERegister 7 4; EStart root_scope 0;
   ESend 3 (IMessagePtr (Some sample_message));
   ESend 4 (IMessagePtr (Some sample_message));
   ESelectRecv 0; ESelectRecv 1].

(** One pair, [Start] called twice: two listeners share the channel and both
    are inside the exporter's [HandleMessage] at once. *)
Definition sched_started_twice : list Event :=
  [ERegister 7 3; EStart root_scope 0; EStart root_scope 0;
   ESend 3 (IMessagePtr (Some sample_message));
   ESend 3 (IMessagePtr (Some sample_message));
   ESelectRecv 0; ESelectRecv 1].

(** One pair served, one message handled and returned from. *)
Definition sched_delivered : list Event :=
  sched_pointer ++ [ESelectRecv 0; EReturn 0].

(** A message by value is received. *)
Definition sched_value_received : list Event :=
  sched_started ++ [ESend 3 (IMessageVal sample_message); ESelectRecv 0].


Fixpoint count (P : Goroutine → bool) (gs : list Goroutine) : nat :=
  match gs with
  | [] => 0%nat
  | l :: gs' => ((if P l then 1 else 0) + count P gs')%nat
  end.

(** *** Projections and schedules for the laws of whole executions *)

(** The identifier a context was created with; [Background] has none. *)
Definition ctx_id (c : Context) : option CtxId :=
  match c with
  | Background => None
  | cancelCtx id _ | timerCtx id _ _ => Some id
  end.

(** The context a context was derived from. *)
Definition ctx_parent (c : Context) : option Context :=
  match c with
  | Background => None
  | cancelCtx _ p | timerCtx _ _ p => Some p
  end.

(** The deadline of [c], if it has one, has passed. *)
Definition expired (w : World) (c : Context) : bool :=
  match Deadline c with
  | Some d => d <=? now w
  | None => false
  end.

(** The context of the [HandleMessage] call a goroutine is inside. *)
Definition in_flight_ctx (l : Goroutine) : option Context :=
  match g_pc l with
  | InHandleMessage c _ => Some c
  | _ => None
  end.

(** Items received by goroutine [g], in order. *)
Definition received_by (g : nat) (tr : list Action) : list Item :=
  omap (λ a, match a with
             | ARecv g' _ x => if decide (g' = g) then Some x else None
             | _ => None
             end) tr.

(** Texts of the warnings logged by goroutine [g], in order. *)
Definition warnings_by (g : nat) (tr : list Action) : list string :=
  omap (λ a, match a with
             | AWarn g' text => if decide (g' = g) then Some text else None
             | _ => None
             end) tr.

(** The warnings the items [xs] earn: one for each that fails the assertion
    of [MessageListener], none for the others. *)
Definition warnings_for (xs : list Item) : list string :=
  omap (λ x, if snd (assert_MessagePtr x) then None else Some (warn_text x)) xs.

(** [Register] called once for each pair of [hs], in order. *)
Definition register_all (hs : list ExporterHandler) : list Event :=
  (λ h, ERegister (exporter h) (subscriptionCh h)) <$> hs.

(** The schedule that ends the listeners [gs], numbered from [g]: a handler
    in flight returns, and every listener that has not exited takes the
    cancellation case of its [select]. *)
Fixpoint wind_down (g : nat) (gs : list Goroutine) : list Event :=
  match gs with
  | [] => []
  | l :: gs' =>
      match g_pc l with
      | AtSelect => [ESelectDone g]
      | InHandleMessage _ _ => [EReturn g; ESelectDone g]
      | Exited => []
      end ++ wind_down (S g) gs'
  end.

(** A message is being handled when the scope is cancelled. *)
Definition sched_cancel_in_flight : list Event :=
  sched_pointer ++ [ESelectRecv 0; ECancel 0].

(** Two messages by value and a [nil] around a well-formed message, all
    received. *)
Definition sched_mixed : list Event :=
  sched_started ++
  [ESend 3 (IMessageVal sample_message); ESend 3 INil;
   ESend 3 (IMessagePtr (Some sample_message)); ESend 3 (IOther "string");
   ESelectRecv 0; ESelectRecv 0; ESelectRecv 0; EReturn 0; ESelectRecv 0].

End Global.

(* ===================================================================== *)
(** ** pkg/watch: the container lifecycle watcher and its test doubles *)
(* ===================================================================== *)

Module Watch.
Import Model Global.

(** *** Docker's types, as far as the test doubles fill them in *)

Record Actor := { Attributes : gmap string string }.

(** [events.Message] *)
Record EventsMessage := {
  ID : string;
  Status : string;
  Type' : string;
  Actor_ : Actor
}.

(** [dt.Container] *)
Record Container := { Names : list string }.

(** [types.EventsOptions]: the filter naming the resource to follow. *)
Record EventsOptions := { Filters : list string }.

(** *** Channels, the clock and sleeping goroutines

    A channel is a queue of the items sent and not yet received; capacities,
    hence a sender that blocks, are not modelled.  A sleeper is a goroutine
    waiting on [time.After] before one send. *)
Record Env := {
  clock : Z;
  next_chan : nat;
  msg_chans : gmap nat (list EventsMessage);
  err_chans : gmap nat (list string);
  emit_chans : gmap nat (list Item);
  sleepers : list (Z * nat * EventsMessage)
}.

Definition env0 : Env :=
  {| clock := 0; next_chan := 0; msg_chans := ∅; err_chans := ∅; emit_chans := ∅;
     sleepers := [] |}.

Definition msgs_of (e : Env) (ch : nat) : list EventsMessage := default [] (msg_chans e !! ch).
Definition errs_of (e : Env) (ch : nat) : list string := default [] (err_chans e !! ch).
Definition emits_of (e : Env) (ch : nat) : list Item := default [] (emit_chans e !! ch).

(** [make(chan events.Message, n)] *)
Definition make_msg_chan (e : Env) : nat * Env :=
  (next_chan e,
   {| clock := clock e; next_chan := S (next_chan e);
      msg_chans := <[ next_chan e := [] ]> (msg_chans e); err_chans := err_chans e;
      emit_chans := emit_chans e; sleepers := sleepers e |}).

(** [make(chan error, n)] *)
Definition make_err_chan (e : Env) : nat * Env :=
  (next_chan e,
   {| clock := clock e; next_chan := S (next_chan e);
      msg_chans := msg_chans e; err_chans := <[ next_chan e := [] ]> (err_chans e);
      emit_chans := emit_chans e; sleepers := sleepers e |}).

(** [make(chan interface{}, n)] *)
Definition make_emit_chan (e : Env) : nat * Env :=
  (next_chan e,
   {| clock := clock e; next_chan := S (next_chan e);
      msg_chans := msg_chans e; err_chans := err_chans e;
      emit_chans := <[ next_chan e := [] ]> (emit_chans e); sleepers := sleepers e |}).

Definition set_msgs (ch : nat) (q : list EventsMessage) (e : Env) : Env :=
  {| clock := clock e; next_chan := next_chan e;
     msg_chans := <[ ch := q ]> (msg_chans e); err_chans := err_chans e;
     emit_chans := emit_chans e; sleepers := sleepers e |}.

Definition set_errs (ch : nat) (q : list string) (e : Env) : Env :=
  {| clock := clock e; next_chan := next_chan e;
     msg_chans := msg_chans e; err_chans := <[ ch := q ]> (err_chans e);
     emit_chans := emit_chans e; sleepers := sleepers e |}.

Definition set_emits (ch : nat) (q : list Item) (e : Env) : Env :=
  {| clock := clock e; next_chan := next_chan e;
     msg_chans := msg_chans e; err_chans := err_chans e;
     emit_chans := <[ ch := q ]> (emit_chans e); sleepers := sleepers e |}.

Definition set_sleepers (s : list (Z * nat * EventsMessage)) (e : Env) : Env :=
  {| clock := clock e; next_chan := next_chan e;
     msg_chans := msg_chans e; err_chans := err_chans e;
     emit_chans := emit_chans e; sleepers := s |}.

Definition set_clock (t : Z) (e : Env) : Env :=
  {| clock := t; next_chan := next_chan e;
     msg_chans := msg_chans e; err_chans := err_chans e;
     emit_chans := emit_chans e; sleepers := sleepers e |}.

(** [ch <- m] *)
Definition send_msg (ch : nat) (m : EventsMessage) (e : Env) : Env :=
  set_msgs ch (msgs_of e ch ++ [m]) e.
Definition send_err (ch : nat) (x : string) (e : Env) : Env :=
  set_errs ch (errs_of e ch ++ [x]) e.
Definition send_emit (ch : nat) (x : Item) (e : Env) : Env :=
  set_emits ch (emits_of e ch ++ [x]) e.

(** [go func() { <-time.After(d); ch <- m }()] *)
Definition go_after (d : Z) (ch : nat) (m : EventsMessage) (e : Env) : Env :=
  set_sleepers (sleepers e ++ [(clock e + d, ch, m)]) e.

(** *** [utils.DockerAdapter], the interface the doubles implement

    [DockerLogs] panics in both doubles and is never called by the watcher's
    state machine; it is left out.  A channel result is [None] for a nil
    channel. *)
Class DockerAdapter (A : Type) := {
  GetRunningContainers : A → list Container * error;
  MatchContainer : A → list Container → list string → Container * error;
  DockerEvents : A → EventsOptions → Env → A * Env * (option nat * option nat * error)
}.

Definition container_message (status : string) (attrs : gmap string string) : EventsMessage :=
  {| ID := "100"; Status := status; Type' := "container";
     Actor_ := {| Attributes := attrs |} |}.

(** [DockerMockAdapterHealthy] *)
Record DockerMockAdapterHealthy := { healthy_unit : unit }.

Definition Healthy_DockerEvents (d : DockerMockAdapterHealthy) (options : EventsOptions)
    (e : Env) : DockerMockAdapterHealthy * Env * (option nat * option nat * error) :=
  let '(msgch, e) := make_msg_chan e in
  let '(errch, e) := make_err_chan e in
  let e := send_msg msgch (container_message "start" ∅) e in
  let e := send_msg msgch (container_message "restart" ∅) e in
  let e := send_msg msgch (container_message "die" {[ "exitCode" := "1" ]}) e in
  (d, e, (Some msgch, Some errch, None)).

#[global] Instance Healthy_adapter : DockerAdapter DockerMockAdapterHealthy := {
  GetRunningContainers _ :=
    ([ {| Names := ["/dapper-private-network_consensus_3_1"] |} ], None);
  MatchContainer _ _ _ :=
    ({| Names := ["/dapper-private-network_consensus_3_1"] |}, None);
  DockerEvents := Healthy_DockerEvents
}.

(** [DockerMockAdapterError]: [once] has run or not; the two channels are
    fields, nil until [once] runs. *)
Record DockerMockAdapterError := {
  once : bool;
  msgch : option nat;
  errch : option nat
}.

Definition Error_DockerEvents (d : DockerMockAdapterError) (options : EventsOptions)
    (e : Env) : DockerMockAdapterError * Env * (option nat * option nat * error) :=
  let '(d, e) :=
    if once d then (d, e)
    else
      let '(m, e) := make_msg_chan e in
      let '(r, e) := make_err_chan e in
      let e := send_err r "mock docker adapter error" e in
      let e := go_after (1 * Second) m (container_message "restart" ∅) e in
      ({| once := true; msgch := Some m; errch := Some r |}, e)
  in
  (d, e, (msgch d, errch d, None)).

#[global] Instance Error_adapter : DockerAdapter DockerMockAdapterError := {
  GetRunningContainers _ :=
    ([ {| Names := ["/dapper-private-network_consensus_3_1"] |} ], None);
  MatchContainer _ _ _ :=
    ({| Names := ["/dapper-private-network_consensus_3_1"] |}, None);
  DockerEvents := Error_DockerEvents
}.

(** *** The watcher *)

(** [ContainerWatchConf] *)
Record ContainerWatchConf := { Regex : list string }.

(** Modelled from the spec: the watcher states of section 3,
    [{Created, Discovering, Streaming, Repairing, Stopped}]; [Streaming]
    carries the matched resource and the two streams of the open
    subscription. *)
Inductive WatchState :=
| Created
| Discovering
| Streaming (c : Container) (msgs errs : option nat)
| Repairing (c : Container)
| Stopped.

(** Calls made on the adapter, in order. *)
Inductive AdapterCall :=
| CGetRunningContainers
| CMatchContainer
| CDockerEvents.

#[global] Instance AdapterCall_eq_dec : EqDecision AdapterCall.
Proof. solve_decision. Defined.

(** Modelled from the spec: [pkg/watch/docker_container.go] is not part of the
    sources at hand.  A watcher owns one adapter, its configuration, its
    state, the subscriber channels registered through [Subscribe] and its
    local cancellation scope; [calls] and [emitted] record what it did. *)
Record ContainerWatch (A : Type) := {
  conf : ContainerWatchConf;
  adapter : A;
  state : WatchState;
  subscribers : list nat;
  stop_called : bool;
  calls : list AdapterCall;
  emitted : list Message;
  env : Env
}.
Arguments conf {A}.
Arguments adapter {A}.
Arguments state {A}.
Arguments subscribers {A}.
Arguments stop_called {A}.
Arguments calls {A}.
Arguments emitted {A}.
Arguments env {A}.

Section Watcher.
Context {A : Type} `{DockerAdapter A}.

(** Modelled from the spec: [NewContainerWatch(conf)], with the adapter that
    the tests install as [utils.DefaultDockerAdapter]. *)
Definition NewContainerWatch (a : A) (c : ContainerWatchConf) (e : Env) : ContainerWatch A :=
  {| conf := c; adapter := a; state := Created; subscribers := []; stop_called := false;
     calls := []; emitted := []; env := e |}.

(** Modelled from the spec: [Subscribe(channel)] registers one more
    independent consumer. *)
Definition Subscribe (ch : nat) (w : ContainerWatch A) : ContainerWatch A :=
  {| conf := conf w; adapter := adapter w; state := state w;
     subscribers := subscribers w ++ [ch]; stop_called := stop_called w;
     calls := calls w; emitted := emitted w; env := env w |}.

(** Modelled from the spec: [Stop()] cancels the watcher's scope; it is
    idempotent. *)
Definition Stop (w : ContainerWatch A) : ContainerWatch A :=
  {| conf := conf w; adapter := adapter w; state := state w;
     subscribers := subscribers w; stop_called := true;
     calls := calls w; emitted := emitted w; env := env w |}.

Definition set_state (s : WatchState) (w : ContainerWatch A) : ContainerWatch A :=
  {| conf := conf w; adapter := adapter w; state := s;
     subscribers := subscribers w; stop_called := stop_called w;
     calls := calls w; emitted := emitted w; env := env w |}.

Definition set_env (e : Env) (w : ContainerWatch A) : ContainerWatch A :=
  {| conf := conf w; adapter := adapter w; state := state w;
     subscribers := subscribers w; stop_called := stop_called w;
     calls := calls w; emitted := emitted w; env := e |}.

Definition called (c : list AdapterCall) (a : A) (w : ContainerWatch A) : ContainerWatch A :=
  {| conf := conf w; adapter := a; state := state w;
     subscribers := subscribers w; stop_called := stop_called w;
     calls := calls w ++ c; emitted := emitted w; env := env w |}.

(** Modelled from the spec: every emitted Message is duplicated, by value, to
    all currently registered subscriber channels. *)
Definition multicast (subs : list nat) (x : Item) (e : Env) : Env :=
  foldl (λ e ch, send_emit ch x e) e subs.

Definition lifecycle_event (name : string) (e : Env) : Message :=
  {| Type_ := MessageType_event; Name := name; Timestamp := clock e; Body := "" |}.

Definition emit_event (name : string) (w : ContainerWatch A) : ContainerWatch A :=
  let m := lifecycle_event name (env w) in
  {| conf := conf w; adapter := adapter w; state := state w;
     subscribers := subscribers w; stop_called := stop_called w;
     calls := calls w; emitted := emitted w ++ [m];
     env := multicast (subscribers w) (IMessageVal m) (env w) |}.

(** Modelled from the spec: the exit attribute of a [die] event is non-zero.
    The attribute is the one the healthy double sets, ["exitCode"]; an absent
    or unreadable attribute counts as not non-zero. *)
Definition exit_nonzero (m : EventsMessage) : bool :=
  match Attributes (Actor_ m) !! "exitCode" with
  | Some s =>
      match DecimalString.NilEmpty.int_of_string s with
      | Some n => negb (Z.of_int n =? 0)
      | None => false
      end
  | None => false
  end.

(** Modelled from the spec: the translation of a message's status field,
    [start] to [agent.node.up], [restart] to [agent.node.restart], [die] with
    a non-zero exit attribute to [agent.node.down], anything else to no
    event. *)
Definition translate (m : EventsMessage) : option string :=
  if String.eqb (Status m) "start" then Some AgentNodeUpName
  else if String.eqb (Status m) "restart" then Some AgentNodeRestartName
  else if String.eqb (Status m) "die" then
    if exit_nonzero m then Some AgentNodeDownName else None
  else None.

(** Modelled from the spec: open the event subscription for the matched
    resource and stream from it.  Where the adapter refuses, the spec leaves
    the retry schedule open: the watcher is left in [otherwise]. *)
Definition open_subscription (c : Container) (otherwise : WatchState)
    (w : ContainerWatch A) : ContainerWatch A :=
  let '(a, e, (msgs, errs, err)) :=
    DockerEvents (adapter w) {| Filters := Names c |} (env w) in
  let w := called [CDockerEvents] a (set_env e w) in
  match err with
  | None => set_state (Streaming c msgs errs) w
  | Some _ => set_state otherwise w
  end.

(** Modelled from the spec: discovery.  List the resources, match the
    configured patterns; on a match emit [agent.node.up] and open the
    subscription; without a match stay in [Discovering]. *)
Definition discover (w : ContainerWatch A) : ContainerWatch A :=
  let w := set_state Discovering w in
  let '(cs, err) := GetRunningContainers (adapter w) in
  let w := called [CGetRunningContainers] (adapter w) w in
  match err with
  | Some _ => w
  | None =>
      let '(c, err) := MatchContainer (adapter w) cs (Regex (conf w)) in
      let w := called [CMatchContainer] (adapter w) w in
      match err with
      | Some _ => w
      | None => open_subscription c Discovering (emit_event AgentNodeUpName w)
      end
  end.

(** Modelled from the spec: the repair of a broken subscription.  Re-open
    the subscription, emit [agent.node.up], stream from the fresh streams. *)
Definition repair (c : Container) (w : ContainerWatch A) : ContainerWatch A :=
  let w := open_subscription c (Repairing c) (set_state (Repairing c) w) in
  match state w with
  | Streaming _ _ _ => emit_event AgentNodeUpName w
  | _ => w
  end.

(** Labels: calls of the watcher's owner, the case the watcher's [select]
    commits to, and the environment. *)
Inductive Label :=
| LSubscribe (ch : nat)
| LStart
| LStop
| LSelectMsg
| LSelectErr
| LSelectCancel
| LTick (d : Z)
| LWake (i : nat).

Definition recv_head {X : Type} (q : list X) : option (X * list X) :=
  match q with
  | [] => None
  | x :: q' => Some (x, q')
  end.

(** Modelled from the spec: one step of the watcher or of its environment;
    [None] when the label is not enabled. *)
Definition wstep (l : Label) (w : ContainerWatch A) : option (ContainerWatch A) :=
  match l with
  | LSubscribe ch => Some (Subscribe ch w)
  | LStart =>
      match state w with
      | Created => Some (discover w)
      | _ => None
      end
  | LStop => Some (Stop w)
  | LSelectMsg =>
      match state w with
      | Streaming c (Some msgs) errs =>
          '(m, q) ← recv_head (msgs_of (env w) msgs);
          let w := set_env (set_msgs msgs q (env w)) w in
          Some (match translate m with
                | Some name => emit_event name w
                | None => w
                end)
      | _ => None
      end
  | LSelectErr =>
      match state w with
      | Streaming c msgs (Some errs) =>
          '(_, q) ← recv_head (errs_of (env w) errs);
          Some (repair c (set_env (set_errs errs q (env w)) w))
      | _ => None
      end
  | LSelectCancel =>
      match state w with
      | Streaming _ _ _ => if stop_called w then Some (set_state Stopped w) else None
      | _ => None
      end
  | LTick d => if d <? 0 then None else Some (set_env (set_clock (clock (env w) + d) (env w)) w)
  | LWake i =>
      '(due, ch, m) ← sleepers (env w) !! i;
      if due <=? clock (env w)
      then Some (set_env (send_msg ch m (set_sleepers (delete i (sleepers (env w))) (env w))) w)
      else None
  end.

Fixpoint wrun (ls : list Label) (w : ContainerWatch A) : option (ContainerWatch A) :=
  match ls with
  | [] => Some w
  | l :: ls' => w ← wstep l w; wrun ls' w
  end.

(** The names a subscriber finds on its channel, in order. *)
Definition observed (ch : nat) (w : ContainerWatch A) : list string :=
  omap (λ x, Name <$> fst (assert_MessageVal x)) (emits_of (env w) ch).

End Watcher.

(** *** The two tests, up to [Start(w)] *)

Definition test_conf : ContainerWatchConf :=
  {| Regex := ["dapper-private-network_consensus_3_1"] |}.

(** [w := NewContainerWatch(conf); emitch := make(chan interface{}, 10);
    w.Subscribe(emitch)]: the subscriber channel and the watcher. *)
Definition subscribed_watch {A : Type} (a : A) : nat * ContainerWatch A :=
  let w := NewContainerWatch a test_conf env0 in
  let '(emitch, e) := make_emit_chan (env w) in
  (emitch, Subscribe emitch (set_env e w)).

(** [TestContainerWatch_happy] *)
Definition happy_watch : ContainerWatch DockerMockAdapterHealthy :=
  snd (subscribed_watch {| healthy_unit := tt |}).



(** *** [utils.DefaultDockerAdapter] and [overrideDockerAdapter] *)

(** The package variable the tests replace. *)
Record Utils (A : Type) := { DefaultDockerAdapter : A }.
Arguments DefaultDockerAdapter {A}.

(** [overrideDockerAdapter(url, mock)]: remembers the adapter installed,
    installs [mock], and returns the function that puts the remembered one
    back.  [url] is not used. *)
Definition overrideDockerAdapter {A : Type} (url : string) (mock : A) (u : Utils A)
    : Utils A * (Utils A → Utils A) :=
  let defaultDockerAdapterWas := DefaultDockerAdapter u in
  ({| DefaultDockerAdapter := mock |},
   λ _, {| DefaultDockerAdapter := defaultDockerAdapterWas |}).

(** Overrides made one after the other, each with its restoring function, in
    the order of the calls. *)
Fixpoint override_all {A : Type} (mocks : list (string * A)) (u : Utils A)
    : Utils A * list (Utils A → Utils A) :=
  match mocks with
  | [] => (u, [])
  | (url, mock) :: mocks' =>
      let '(u, undo) := overrideDockerAdapter url mock u in
      let '(u, undos) := override_all mocks' u in
      (u, undo :: undos)
  end.

(** Go's [defer]: the deferred functions run last in, first out. *)
Definition run_deferred {S : Type} (fs : list (S → S)) (s : S) : S :=
  foldr (λ f s, f s) s fs.

(** *** The assertions of the two tests *)

(** What the [select] of one subtest yields: a value received from
    [emitch], the zero value of a closed channel, or the five-second
    timeout. *)
Inductive Received :=
| Got (got : Item)
| Closed
| TimedOut.

(** [case got, ok := <-emitch:] against [case <-time.After(5 * time.Second):] *)
Definition select_emitch (r : Received) : option (Item * bool) :=
  match r with
  | Got got => Some (got, true)
  | Closed => Some (INil, false)
  | TimedOut => None
  end.

(** The body of [t.Run(ev, func(t *testing.T) {...})]: [true] when every
    [require] holds and [t.Fatal] is not reached.  [ev] only names the
    subtest. *)
Definition subtest (ev : string) (r : Received) : bool :=
  match select_emitch r with
  | Some (got, ok) =>
      let '(msg, err) := assert_MessageVal got in
      err                                      (* require.True(t, err) *)
      && ok                                    (* require.True(t, ok) *)
      && negb (bool_decide (got = INil))       (* require.NotNil(t, got) *)
      && snd (assert_MessageVal got)           (* require.IsType(t, model.Message{}, got) *)
      && match msg with                        (* require.Equal(t, msg.Type, ...) *)
         | Some m => bool_decide (Type_ m = MessageType_event)
         | None => false
         end
  | None => false                              (* t.Fatal("timeout waiting ...") *)
  end.

(** [for _, ev := range expEvents { t.Run(ev, ...) }] over what the selects
    yield, one outcome per subtest: the test passes when every subtest
    does. *)
Fixpoint run_subtests (expEvents : list string) (outcomes : list Received) : bool :=
  match expEvents, outcomes with
  | [], _ => true
  | ev :: evs, r :: rs => let ok := subtest ev r in let oks := run_subtests evs rs in ok && oks
  | _ :: _, [] => false
  end.

(** [expEvents] of [TestContainerWatch_happy] and of [TestContainerWatch_error] *)
Definition happy_expEvents : list string :=
  [AgentNodeUpName; AgentNodeUpName; AgentNodeRestartName; AgentNodeDownName].

Definition error_expEvents : list string :=
  [AgentNodeUpName; AgentNodeUpName; AgentNodeRestartName].

(** The three messages the healthy double queues on every call. *)
Definition healthy_script : list EventsMessage :=
  [container_message "start" ∅; container_message "restart" ∅;
   container_message "die" {[ "exitCode" := "1" ]}].

End Watch.

(** * Facts about the exporter registry and its listeners *)

Module RegistryFacts.
Import Model Global.

(** *** Counting goroutines *)

Lemma count_app P gs1 gs2 : count P (gs1 ++ gs2) = (count P gs1 + count P gs2)%nat.
Proof. induction gs1 as [|l gs1 IH]; simpl; [done|]. rewrite IH. lia. Qed.

Lemma count_insert P gs i x y :
  gs !! i = Some x →
  (count P (<[i:=y]> gs) + (if P x then 1 else 0) = count P gs + (if P y then 1 else 0))%nat.
Proof.
  revert i. induction gs as [|l gs IH]; intros [|i] Hi; simplify_eq/=; [lia|].
  specialize (IH _ Hi). lia.
Qed.

Lemma count_insert_same P gs i x y :
  gs !! i = Some x → P y = P x → count P (<[i:=y]> gs) = count P gs.
Proof. intros Hi HP. pose proof (count_insert P gs i x y Hi) as Hc. rewrite HP in Hc. lia. Qed.

Lemma count_insert_drop P gs i x y :
  gs !! i = Some x → P x = true → P y = false →
  (count P (<[i:=y]> gs) + 1 = count P gs)%nat.
Proof.
  intros Hi Hx Hy. pose proof (count_insert P gs i x y Hi) as Hc.
  rewrite Hx, Hy in Hc. lia.
Qed.

Lemma count_insert_raise P gs i x y :
  gs !! i = Some x → P x = false → P y = true →
  (count P (<[i:=y]> gs) = count P gs + 1)%nat.
Proof.
  intros Hi Hx Hy. pose proof (count_insert P gs i x y Hi) as Hc.
  rewrite Hx, Hy in Hc. lia.
Qed.

Lemma count_zero P gs : (∀ l, l ∈ gs → P l = false) → count P gs = 0%nat.
Proof.
  induction gs as [|l gs IH]; intros HP; simpl; [done|].
  rewrite (HP l) by set_solver. rewrite IH; [done|]. intros; apply HP; set_solver.
Qed.

Lemma count_zero_inv P gs l : count P gs = 0%nat → l ∈ gs → P l = false.
Proof.
  induction gs as [|x gs IH]; simpl; intros Hc Hin; [by apply elem_of_nil in Hin|].
  apply elem_of_cons in Hin as [->|Hin].
  - destruct (P x); [lia|done].
  - apply IH; [|done]. destruct (P x); lia.
Qed.

Lemma count_pos P gs i l : gs !! i = Some l → P l = true → (1 ≤ count P gs)%nat.
Proof.
  revert i. induction gs as [|x gs IH]; intros [|i] Hi HP; simplify_eq/=.
  - rewrite HP. lia.
  - specialize (IH _ Hi HP). lia.
Qed.

Lemma count_spawned_running r ctx wg hs :
  count (running_on r) ((listener_of ctx wg <$> hs))
  = if decide (r = wg) then length hs else 0%nat.
Proof.
  induction hs as [|h hs IH]; csimpl; [by case_decide|].
  rewrite IH. unfold running_on; simpl.
  case_decide; subst.
  - rewrite bool_decide_eq_true_2 by done. lia.
  - rewrite bool_decide_eq_false_2 by done. lia.
Qed.

Lemma count_spawned_calling e ctx wg hs :
  count (calling e) ((listener_of ctx wg <$> hs)) = 0%nat.
Proof. induction hs as [|h hs IH]; csimpl; done. Qed.

(** *** The counters *)

Lemma wg_counter_set_wg w r v r' :
  wg_counter (set_wg r v w) r' = if decide (r' = r) then v else wg_counter w r'.
Proof.
  unfold wg_counter; simpl. case_decide; subst.
  - by rewrite lookup_insert_eq.
  - by rewrite lookup_insert_ne.
Qed.

Lemma chan_set_chan w ch q ch' :
  chan (set_chan ch q w) ch' = if decide (ch' = ch) then q else chan w ch'.
Proof.
  unfold chan; simpl. case_decide; subst.
  - by rewrite lookup_insert_eq.
  - by rewrite lookup_insert_ne.
Qed.

Lemma WgAdd_Some r d w w' :
  WgAdd r d w = Some w' → 0 ≤ wg_counter w r + d ∧ w' = set_wg r (wg_counter w r + d) w.
Proof.
  unfold WgAdd. destruct (Z.ltb_spec (wg_counter w r + d) 0); [done|].
  intros [= <-]. done.
Qed.

Lemma WgAdd_ok r d w :
  0 ≤ wg_counter w r + d → WgAdd r d w = Some (set_wg r (wg_counter w r + d) w).
Proof.
  intros. unfold WgAdd. destruct (Z.ltb_spec (wg_counter w r + d) 0); [lia|done].
Qed.

(** *** [Start] *)

Lemma start_range_Some ctx r hs w w' :
  start_range ctx r hs w = Some w' →
  registry w' = registry w ∧ now w' = now w ∧ cancelled w' = cancelled w ∧
  next_id w' = next_id w ∧ chans w' = chans w ∧
  goroutines w' = goroutines w ++ (listener_of ctx r <$> hs) ∧
  trace w' = trace w ++ start_actions r (length (goroutines w)) hs ∧
  (∀ r', wg_counter w' r' =
         wg_counter w r' + if decide (r' = r) then Z.of_nat (length hs) else 0).
Proof.
  revert w. induction hs as [|h hs IH]; intros w Hs; simpl in Hs.
  - simplify_eq. rewrite !app_nil_r. repeat split; try done.
    intros r'. case_decide; simpl; lia.
  - unfold start_handler in Hs.
    destruct (WgAdd r 1 w) as [w1|] eqn:Hadd; simpl in Hs; [|done].
    apply WgAdd_Some in Hadd as [Hpos ->].
    apply IH in Hs as (-> & -> & -> & -> & -> & -> & -> & Hwg). simpl.
    rewrite <- !app_assoc. simpl. rewrite length_app. simpl.
    replace (length (goroutines w) + 1)%nat with (S (length (goroutines w))) by lia.
    repeat split; try done.
    intros r'. rewrite Hwg.
    change (wg_counter (emit _ (spawn _ (emit _ ?x))) r') with (wg_counter x r').
    rewrite wg_counter_set_wg. repeat case_decide; subst; try done; lia.
Qed.

Lemma start_range_ok ctx r hs w :
  0 ≤ wg_counter w r → is_Some (start_range ctx r hs w).
Proof.
  revert w. induction hs as [|h hs IH]; intros w Hpos; simpl; [by eexists|].
  unfold start_handler. rewrite WgAdd_ok by lia. simpl. apply IH.
  change (wg_counter (emit _ (spawn _ (emit _ ?x))) r) with (wg_counter x r).
  rewrite wg_counter_set_wg. rewrite decide_True by done. lia.
Qed.


(** *** The two outcomes of a receive *)

Lemma item_cases m : (∃ p, m = IMessagePtr p) ∨ malformed m.
Proof. destruct m; unfold malformed; simpl; eauto. Qed.

Lemma listener_recv_ptr g l p rest w :
  listener_recv g l (IMessagePtr p) rest w =
  let child := derive (g_ctx l) (now w + DefaultExporterTimeout) (Own (next_id w)) in
  set_goroutine g (at_pc l (InHandleMessage child p))
    (emit [AHandleMessage g (g_handler l) child p]
       (emit [AWithTimeout g (g_ctx l) child]
          (bump_id (emit [ARecv g (g_ch l) (IMessagePtr p)] (set_chan (g_ch l) rest w))))).
Proof. reflexivity. Qed.

Lemma listener_recv_malformed g l m rest w :
  malformed m →
  listener_recv g l m rest w =
  emit [AWarn g (warn_text m)] (emit [ARecv g (g_ch l) m] (set_chan (g_ch l) rest w)).
Proof. destruct m; unfold malformed; simpl; intros; done. Qed.

(** Case analysis of an enabled step. *)
Ltac step_inv H :=
  match type of H with
  | step ?ev ?w = Some ?w' =>
      let l := fresh "l" in
      let Hg := fresh "Hg" in
      let Hpc := fresh "Hpc" in
      destruct ev as [d|ch x|n|exp subCh|ctx r|g|g|g]; simpl in H;
      [ destruct (Z.ltb_spec d 0); [done|]; injection H as <-
      | injection H as <-
      | injection H as <-
      | injection H as <-
      | let Hsr := fresh "Hsr" in
        let w1 := fresh "w1" in
        destruct (external ctx) eqn:?; [|done]; unfold Start in H;
        destruct (start_range ctx r (handlers (registry w)) w) as [w1|] eqn:Hsr;
        simpl in H; [|done]; injection H as <-;
        apply start_range_Some in Hsr
      | let m := fresh "m" in
        let rest := fresh "rest" in
        let Hch := fresh "Hch" in
        destruct (goroutines w !! g) as [l|] eqn:Hg; simpl in H; [|done];
        destruct (g_pc l) eqn:Hpc; try done;
        destruct (chan w (g_ch l)) as [|m rest] eqn:Hch; [done|];
        injection H as <-;
        destruct (item_cases m) as [[? ->]|?];
        [rewrite listener_recv_ptr | rewrite listener_recv_malformed by done]
      | let HD := fresh "HD" in
        let Hadd := fresh "Hadd" in
        let w1 := fresh "w1" in
        destruct (goroutines w !! g) as [l|] eqn:Hg; simpl in H; [|done];
        destruct (g_pc l) eqn:Hpc; try done;
        destruct (Done w (g_ctx l)) eqn:HD; [|done];
        unfold listener_done in H;
        destruct (WgAdd (g_wg l) (-1) (emit [AInfo g "exiting listener"] w))
          as [w1|] eqn:Hadd; simpl in H; [|done];
        injection H as <-;
        apply WgAdd_Some in Hadd as [Hadd ->]
      | destruct (goroutines w !! g) as [l|] eqn:Hg; simpl in H; [|done];
        destruct (g_pc l) eqn:Hpc; try done;
        injection H as <-; unfold listener_return
      ]
  end.

(** *** Invariants of every reachable world *)

Lemma running_on_at_pc r l pc :
  running_on r (at_pc l pc) = match pc with Exited => false | _ => bool_decide (g_wg l = r) end.
Proof. by destruct pc. Qed.

(** A WaitGroup counts the listeners registered with it that have not
    returned. *)
Lemma wg_counts_running w :
  Reachable w → ∀ r, wg_counter w r = Z.of_nat (count (running_on r) (goroutines w)).
Proof.
  induction 1 as [|w ev w' Hr IH Hstep]; intros r0; [done|].
  specialize (IH r0). step_inv Hstep; simpl; try done.
  - destruct Hsr as (_ & _ & _ & _ & _ & -> & _ & ->).
    rewrite count_app, count_spawned_running, IH.
    repeat case_decide; subst; try done; lia.
  - rewrite (count_insert_same _ _ _ l); [done|done|].
    rewrite running_on_at_pc. unfold running_on. by rewrite Hpc.
  - change (wg_counter (set_goroutine _ _ (emit _ ?x)) r0) with (wg_counter x r0).
    rewrite wg_counter_set_wg.
    change (wg_counter (emit _ ?x) ?r) with (wg_counter x r).
    case_decide; subst.
    + assert (running_on (g_wg l) l = true) as Hrun
        by (unfold running_on; rewrite Hpc; by apply bool_decide_eq_true_2).
      pose proof (count_insert_drop _ _ _ _ (at_pc l Exited) Hg Hrun eq_refl). lia.
    + rewrite (count_insert_same _ _ _ l); [done|done|].
      rewrite running_on_at_pc. unfold running_on. rewrite Hpc.
      by rewrite bool_decide_eq_false_2.
  - replace (wg_counter (set_goroutine g (at_pc l AtSelect)
               (emit [ACancel g ctx] (cancel ctx (emit [AHandleReturn g (g_handler l)] w)))) r0)
      with (wg_counter w r0) by (by destruct ctx).
    replace (goroutines (cancel ctx (emit [AHandleReturn g (g_handler l)] w)))
      with (goroutines w) by (by destruct ctx).
    rewrite (count_insert_same _ _ _ l); [done|done|].
    rewrite running_on_at_pc. unfold running_on. by rewrite Hpc.
Qed.


(** *** Reading a trace *)

Lemma omap_start_actions {B} (f : Action → option B) r g hs :
  (∀ d, f (AWgAdd r d) = None) → (∀ g h, f (AGo g h) = None) →
  omap f (start_actions r g hs) = [].
Proof.
  intros H1 H2. revert g. induction hs as [|h hs IH]; intros g; simpl; [done|].
  by rewrite H1, H2, IH.
Qed.

Lemma pointers_app xs ys : pointers (xs ++ ys) = pointers xs ++ pointers ys.
Proof. apply omap_app. Qed.

Lemma pointers_malformed m : malformed m → pointers [m] = [].
Proof. by destruct m. Qed.

Lemma sent_app ch tr1 tr2 : sent ch (tr1 ++ tr2) = sent ch tr1 ++ sent ch tr2.
Proof. apply omap_app. Qed.
Lemma received_app ch tr1 tr2 : received ch (tr1 ++ tr2) = received ch tr1 ++ received ch tr2.
Proof. apply omap_app. Qed.
Lemma delivered_app h tr1 tr2 : delivered h (tr1 ++ tr2) = delivered h tr1 ++ delivered h tr2.
Proof. apply omap_app. Qed.
Lemma delivered_to_app e tr1 tr2 :
  delivered_to e (tr1 ++ tr2) = delivered_to e tr1 ++ delivered_to e tr2.
Proof. apply omap_app. Qed.
Lemma delivered_from_app ch tr1 tr2 :
  delivered_from ch (tr1 ++ tr2) = delivered_from ch tr1 ++ delivered_from ch tr2.
Proof. apply omap_app. Qed.
Lemma returns_of_app e tr1 tr2 :
  returns_of e (tr1 ++ tr2) = returns_of e tr1 ++ returns_of e tr2.
Proof. apply omap_app. Qed.
Lemma calls_by_app g tr1 tr2 : calls_by g (tr1 ++ tr2) = calls_by g tr1 ++ calls_by g tr2.
Proof. apply omap_app. Qed.

Lemma sent_start_actions ch r g hs : sent ch (start_actions r g hs) = [].
Proof. by apply omap_start_actions. Qed.
Lemma received_start_actions ch r g hs : received ch (start_actions r g hs) = [].
Proof. by apply omap_start_actions. Qed.
Lemma delivered_start_actions h r g hs : delivered h (start_actions r g hs) = [].
Proof. by apply omap_start_actions. Qed.
Lemma delivered_to_start_actions e r g hs : delivered_to e (start_actions r g hs) = [].
Proof. by apply omap_start_actions. Qed.
Lemma delivered_from_start_actions ch r g hs : delivered_from ch (start_actions r g hs) = [].
Proof. by apply omap_start_actions. Qed.
Lemma returns_of_start_actions e r g hs : returns_of e (start_actions r g hs) = [].
Proof. by apply omap_start_actions. Qed.
Lemma calls_by_start_actions g0 r g hs : calls_by g0 (start_actions r g hs) = [].
Proof. by apply omap_start_actions. Qed.

(** Split the projections of a trace along its last actions. *)
Ltac tr_simpl :=
  rewrite ?sent_app, ?received_app, ?delivered_app, ?delivered_to_app, ?delivered_from_app,
    ?returns_of_app, ?calls_by_app,
    ?sent_start_actions, ?received_start_actions, ?delivered_start_actions,
    ?delivered_to_start_actions, ?delivered_from_start_actions, ?returns_of_start_actions,
    ?calls_by_start_actions;
  cbn [sent received delivered delivered_to delivered_from returns_of calls_by omap list_omap];
  rewrite ?app_nil_r.

(** The fields a step leaves alone. *)
Lemma cancel_trace c w : trace (cancel c w) = trace w.
Proof. by destruct c. Qed.
Lemma cancel_goroutines c w : goroutines (cancel c w) = goroutines w.
Proof. by destruct c. Qed.
Lemma cancel_chans c w : chans (cancel c w) = chans w.
Proof. by destruct c. Qed.
Lemma cancel_wgs c w : wgs (cancel c w) = wgs w.
Proof. by destruct c. Qed.
Lemma cancel_registry c w : registry (cancel c w) = registry w.
Proof. by destruct c. Qed.
Lemma cancel_now c w : now (cancel c w) = now w.
Proof. by destruct c. Qed.
Lemma cancel_next_id c w : next_id (cancel c w) = next_id w.
Proof. by destruct c. Qed.

Lemma queue_insert (m : gmap nat (list Item)) ch q c :
  default [] (<[ch:=q]> m !! c) = if decide (c = ch) then q else default [] (m !! c).
Proof.
  case_decide; subst; [by rewrite lookup_insert_eq | by rewrite lookup_insert_ne].
Qed.

Lemma counter_insert (m : gmap nat Z) r v r' :
  default 0 (<[r:=v]> m !! r') = if decide (r' = r) then v else default 0 (m !! r').
Proof.
  case_decide; subst; [by rewrite lookup_insert_eq | by rewrite lookup_insert_ne].
Qed.

Ltac frame_fields :=
  repeat first
    [ progress cbn [registry now cancelled next_id chans wgs goroutines trace
        emit set_registry advance mark_cancelled bump_id set_chan set_wg set_goroutine spawn]
    | rewrite cancel_trace | rewrite cancel_goroutines | rewrite cancel_chans
    | rewrite cancel_wgs | rewrite cancel_registry | rewrite cancel_now
    | rewrite cancel_next_id ].

Ltac refold :=
  repeat match goal with
    | |- context [default 0 (wgs ?w !! ?r)] =>
        change (default 0 (wgs w !! r)) with (wg_counter w r)
    | |- context [default [] (chans ?w !! ?c)] =>
        change (default [] (chans w !! c)) with (chan w c)
    end.

Ltac frame :=
  frame_fields; unfold chan, wg_counter; frame_fields;
  rewrite ?queue_insert, ?counter_insert; refold.

Lemma calling_at_pc e l pc :
  calling e (at_pc l pc) =
  match pc with InHandleMessage _ _ => bool_decide (g_e l = e) | _ => false end.
Proof. by destruct pc. Qed.

Lemma calling_idle e l : g_pc l = AtSelect → calling e l = false.
Proof. unfold calling. by intros ->. Qed.

Lemma calling_busy e l c p :
  g_pc l = InHandleMessage c p → calling e l = bool_decide (g_e l = e).
Proof. unfold calling. by intros ->. Qed.

(** The calls in flight on an exporter are those of the goroutines that
    stand inside its [HandleMessage]. *)
Lemma in_flight_counts_calling w :
  Reachable w → ∀ e, in_flight e (trace w) = Z.of_nat (count (calling e) (goroutines w)).
Proof.
  induction 1 as [|w ev w' Hr IH Hstep]; intros e; [done|].
  specialize (IH e). unfold in_flight in *.
  step_inv Hstep; frame; tr_simpl; try done.
  - destruct Hsr as (_ & _ & _ & _ & _ & -> & -> & _). tr_simpl.
    rewrite count_app, count_spawned_calling. rewrite IH. lia.
  - destruct (decide (exporter (g_handler l) = e)) as [He|He]; simpl in He.
    + rewrite (count_insert_raise _ _ _ l); [|done|by apply calling_idle|].
      * rewrite length_app. simpl. lia.
      * rewrite calling_at_pc. by apply bool_decide_eq_true_2.
    + rewrite (count_insert_same _ _ _ l); [|done|].
      * by rewrite app_nil_r.
      * rewrite calling_at_pc, calling_idle by done. by apply bool_decide_eq_false_2.
  - rewrite (count_insert_same _ _ _ l); [done|done|].
    by rewrite calling_at_pc, calling_idle.
  - destruct (decide (exporter (g_handler l) = e)) as [He|He]; simpl in He.
    + assert (calling e l = true) as Hl
        by (erewrite calling_busy by done; by apply bool_decide_eq_true_2).
      pose proof (count_insert_drop _ _ _ _ (at_pc l AtSelect) Hg Hl eq_refl).
      rewrite length_app. simpl. lia.
    + rewrite (count_insert_same _ _ _ l); [|done|].
      * by rewrite app_nil_r.
      * rewrite calling_at_pc. erewrite calling_busy by done.
        symmetry. by apply bool_decide_eq_false_2.
Qed.

(** What was sent on a channel is what was received from it, followed by
    what it still holds. *)
Lemma sent_received_queued w :
  Reachable w → ∀ ch, sent ch (trace w) = received ch (trace w) ++ chan w ch.
Proof.
  induction 1 as [|w ev w' Hr IH Hstep]; intros c; [done|].
  specialize (IH c).
  step_inv Hstep; frame; tr_simpl; try done.
  - destruct (decide (ch = c)) as [->|Hne].
    + rewrite decide_True by done. by rewrite IH, app_assoc.
    + rewrite decide_False by done. by rewrite app_nil_r.
  - destruct Hsr as (_ & _ & _ & _ & Hc & _ & -> & _). tr_simpl.
    unfold chan. by rewrite Hc.
  - destruct (decide (g_ch l = c)) as [<-|Hne].
    + rewrite decide_True by done. rewrite IH, Hch. by rewrite <- app_assoc.
    + rewrite decide_False by done. by rewrite app_nil_r.
  - destruct (decide (g_ch l = c)) as [<-|Hne].
    + rewrite decide_True by done. rewrite IH, Hch. by rewrite <- app_assoc.
    + rewrite decide_False by done. by rewrite app_nil_r.
Qed.

(** The calls fed from a channel carry, in order, the well-formed items
    received from it. *)
Lemma delivered_from_received w :
  Reachable w → ∀ ch, delivered_from ch (trace w) = pointers (received ch (trace w)).
Proof.
  induction 1 as [|w ev w' Hr IH Hstep]; intros c; [done|].
  specialize (IH c).
  step_inv Hstep; frame; tr_simpl; try done.
  - destruct Hsr as (_ & _ & _ & _ & _ & _ & -> & _). by tr_simpl.
  - destruct (decide (g_ch l = c)) as [<-|Hne]; simpl.
    + rewrite decide_True by done. rewrite pointers_app, IH. done.
    + rewrite decide_False by done. by rewrite !app_nil_r.
  - destruct (decide (g_ch l = c)) as [<-|Hne]; simpl.
    + rewrite pointers_app, pointers_malformed, app_nil_r by done. done.
    + by rewrite app_nil_r.
Qed.


(** *** How a step treats the goroutines *)

Lemma handler_at_pc l pc : g_handler (at_pc l pc) = g_handler l.
Proof. done. Qed.

Lemma handler_listener_of ctx r h : g_handler (listener_of ctx r h) = h.
Proof. by destruct h. Qed.

Lemma handlers_insert (gs : list Goroutine) (g : nat) l pc :
  gs !! g = Some l → g_handler <$> <[g:=at_pc l pc]> gs = g_handler <$> gs.
Proof.
  intros Hg. rewrite list_fmap_insert, handler_at_pc.
  apply list_insert_id. by rewrite list_lookup_fmap, Hg.
Qed.

(** Only [Start] adds goroutines: one per registered pair. *)
Lemma step_handlers ev w w' :
  step ev w = Some w' →
  g_handler <$> goroutines w' =
  (g_handler <$> goroutines w) ++
  match ev with EStart _ _ => handlers (registry w) | _ => [] end.
Proof.
  intros Hstep. step_inv Hstep; frame; rewrite ?app_nil_r; try done.
  - destruct Hsr as (_ & _ & _ & _ & _ & -> & _ & _).
    rewrite fmap_app. f_equal. rewrite <- list_fmap_compose.
    rewrite <- (list_fmap_id (handlers (registry w))) at 2.
    apply list_fmap_ext. intros ? h _. apply handler_listener_of.
  - by apply handlers_insert.
  - by apply handlers_insert.
  - by apply handlers_insert.
Qed.

(** A step of the environment or of another goroutine leaves goroutine [k]
    where it is. *)
Lemma step_elsewhere ev w w' k lk :
  step ev w = Some w' → goroutines w !! k = Some lk →
  ev ≠ ESelectRecv k → ev ≠ ESelectDone k → ev ≠ EReturn k →
  goroutines w' !! k = Some lk.
Proof.
  intros Hstep Hl H1 H2 H3. step_inv Hstep; frame; try done.
  - destruct Hsr as (_ & _ & _ & _ & _ & -> & _ & _). by apply lookup_app_l_Some.
  - rewrite list_lookup_insert_ne; [done|congruence].
  - rewrite list_lookup_insert_ne; [done|congruence].
  - rewrite list_lookup_insert_ne; [done|congruence].
Qed.


(** A step extends the trace; a call it adds is made by a goroutine that
    was at its [select] and took the receive case. *)
Lemma step_new_calls ev w w' :
  step ev w = Some w' →
  ∃ new, trace w' = trace w ++ new ∧
    ∀ g h c p, AHandleMessage g h c p ∈ new →
      ev = ESelectRecv g ∧
      ∃ l, goroutines w !! g = Some l ∧ g_handler l = h ∧ g_pc l = AtSelect.
Proof.
  intros Hstep. step_inv Hstep; frame;
    try (eexists; split; [try rewrite <- !app_assoc; reflexivity
                         | intros ???? Hin; exfalso;
                           repeat (apply elem_of_cons in Hin as [Hin|Hin]; [done|]);
                           by apply elem_of_nil in Hin]).
  - exists []. rewrite app_nil_r. split; [done|]. intros ???? Hin. by apply elem_of_nil in Hin.
  - exists []. rewrite app_nil_r. split; [done|]. intros ???? Hin. by apply elem_of_nil in Hin.
  - destruct Hsr as (_ & _ & _ & _ & _ & _ & -> & _).
    eexists; split; [done|]. intros k h c p Hin. exfalso.
    generalize dependent (length (goroutines w)).
    induction (handlers (registry w)) as [|h0 hs IH]; intros n Hin; simpl in Hin;
      [by apply elem_of_nil in Hin|].
    apply elem_of_cons in Hin as [?|Hin]; [done|].
    apply elem_of_cons in Hin as [?|Hin]; [done|]. eauto.
  - eexists; split; [try rewrite <- !app_assoc; reflexivity|].
    intros k h c p Hin. simpl in Hin.
    apply elem_of_cons in Hin as [Hin|Hin]; [done|].
    apply elem_of_cons in Hin as [Hin|Hin]; [done|].
    apply elem_of_cons in Hin as [Hin|Hin]; [|by apply elem_of_nil in Hin].
    simplify_eq. eauto.
Qed.

(** The clock never runs backwards and a cancellation is never undone. *)
Lemma step_mono ev w w' :
  step ev w = Some w' → now w ≤ now w' ∧ cancelled w ⊆ cancelled w'.
Proof.
  intros Hstep. step_inv Hstep; frame; try (split; [lia|done]).
  - split; [lia|]. apply union_subseteq_r.
  - destruct Hsr as (_ & -> & -> & _). done.
  - split; [lia|]. destruct ctx; simpl; [done| |]; apply union_subseteq_r.
Qed.

Lemma Done_mono w w' c :
  now w ≤ now w' → cancelled w ⊆ cancelled w' → Done w c = true → Done w' c = true.
Proof.
  intros Hn Hc. induction c as [|id p IH|id d p IH]; simpl; [done| |].
  - rewrite !orb_true_iff, !bool_decide_eq_true.
    intros [?|?]; [left; by apply Hc | right; auto].
  - rewrite !orb_true_iff, !bool_decide_eq_true, !Z.leb_le.
    intros [[?|?]|?]; [left; left; by apply Hc | left; right; lia | right; auto].
Qed.


Lemma run_reachable evs w w' : Reachable w → run evs w = Some w' → Reachable w'.
Proof.
  revert w. induction evs as [|ev evs IH]; intros w Hr Hrun; simpl in Hrun.
  - by simplify_eq.
  - destruct (step ev w) as [w1|] eqn:Hstep; simpl in Hrun; [|done].
    eapply IH; [|done]. by eapply Reachable_step.
Qed.

Lemma run_app evs1 evs2 w :
  run (evs1 ++ evs2) w = w1 ← run evs1 w; run evs2 w1.
Proof.
  revert w. induction evs1 as [|ev evs1 IH]; intros w; simpl; [done|].
  destruct (step ev w); simpl; [apply IH|done].
Qed.


(** *** A goroutine that is not at its [select] *)

Lemma calls_by_none k tr :
  (∀ h c p, AHandleMessage k h c p ∉ tr) → calls_by k tr = [].
Proof.
  induction tr as [|a tr IH]; intros Hno; [done|].
  change (a :: tr) with ([a] ++ tr).
  rewrite calls_by_app, IH, app_nil_r
    by (intros h c p Hin; apply (Hno h c p); by right).
  destruct a; try done. unfold calls_by. simpl. case_decide; [|done]. subst.
  exfalso. eapply Hno. by left.
Qed.


(** While goroutine [k] is inside [HandleMessage], or once it has exited,
    nothing but the handler's return moves it, and it makes no call. *)
Lemma step_parked ev w w' k lk :
  step ev w = Some w' → goroutines w !! k = Some lk → g_pc lk ≠ AtSelect →
  ev ≠ EReturn k →
  goroutines w' !! k = Some lk ∧ calls_by k (trace w') = calls_by k (trace w).
Proof.
  intros Hstep Hl Hpc Hret. split.
  - eapply step_elsewhere; try done.
    + intros ->. simpl in Hstep. rewrite Hl in Hstep. simpl in Hstep.
      by destruct (g_pc lk).
    + intros ->. simpl in Hstep. rewrite Hl in Hstep. simpl in Hstep.
      by destruct (g_pc lk).
  - apply step_new_calls in Hstep as (new & -> & Hnew).
    rewrite calls_by_app, (calls_by_none k new), app_nil_r; [done|].
    intros h c p Hin. apply Hnew in Hin as (_ & l' & Hl' & _ & Hat). congruence.
Qed.

Lemma run_in_flight evs w w' k lk :
  run evs w = Some w' → goroutines w !! k = Some lk → g_pc lk ≠ AtSelect →
  no_return k evs →
  goroutines w' !! k = Some lk ∧ calls_by k (trace w') = calls_by k (trace w).
Proof.
  revert w. induction evs as [|ev evs IH]; intros w Hrun Hl Hpc Hno; simpl in Hrun.
  - by simplify_eq.
  - destruct (step ev w) as [w1|] eqn:Hstep; simpl in Hrun; [|done].
    apply Forall_cons in Hno as [Hev Hno].
    destruct (step_parked _ _ _ _ _ Hstep Hl Hpc Hev) as [Hl1 Hc1].
    destruct (IH _ Hrun Hl1 Hpc Hno) as [Hl2 Hc2]. split; [done|congruence].
Qed.


(** *** Deriving and cancelling the child context *)

Lemma DefaultExporterTimeout_value : DefaultExporterTimeout = 5000000000.
Proof. reflexivity. Qed.

Lemma derive_shape parent d id :
  derive parent d id = cancelCtx id parent ∨ derive parent d id = timerCtx id d parent.
Proof.
  unfold derive. destruct (Deadline parent) as [cur|]; [|by right].
  destruct (cur <? d); [by left|by right].
Qed.

Lemma derive_deadline parent d id :
  Deadline (derive parent d id) =
  Some (match Deadline parent with Some cur => Z.min cur d | None => d end).
Proof.
  unfold derive. destruct (Deadline parent) as [cur|] eqn:Hp; [|done].
  destruct (Z.ltb_spec cur d); simpl.
  - rewrite Hp. f_equal. lia.
  - f_equal. lia.
Qed.



(** *** The enabled steps of a listener, spelled out *)

Lemma step_recv_ptr w g l p rest :
  goroutines w !! g = Some l → g_pc l = AtSelect →
  chan w (g_ch l) = IMessagePtr p :: rest →
  step (ESelectRecv g) w = Some (listener_recv g l (IMessagePtr p) rest w).
Proof. intros Hl Hpc Hch. simpl. rewrite Hl. simpl. by rewrite Hpc, Hch. Qed.

Lemma step_recv_malformed w g l x rest :
  goroutines w !! g = Some l → g_pc l = AtSelect → chan w (g_ch l) = x :: rest →
  malformed x →
  step (ESelectRecv g) w =
  Some (emit [AWarn g (warn_text x)] (emit [ARecv g (g_ch l) x] (set_chan (g_ch l) rest w))).
Proof.
  intros Hl Hpc Hch Hx. simpl. rewrite Hl. simpl. rewrite Hpc, Hch.
  by rewrite listener_recv_malformed.
Qed.

(** In a reachable world the deferred [wg.Done()] never panics. *)
Lemma step_select_done w g l :
  Reachable w → goroutines w !! g = Some l → g_pc l = AtSelect →
  Done w (g_ctx l) = true →
  step (ESelectDone g) w =
  Some (set_goroutine g (at_pc l Exited)
          (emit [AWgDone g (g_wg l)]
             (set_wg (g_wg l) (wg_counter w (g_wg l) + -1)
                (emit [AInfo g "exiting listener"] w)))).
Proof.
  intros Hr Hl Hpc HD. simpl. rewrite Hl. simpl. rewrite Hpc, HD.
  unfold listener_done.
  assert (1 ≤ count (running_on (g_wg l)) (goroutines w))%nat as Hone.
  { eapply count_pos; [done|]. unfold running_on. rewrite Hpc.
    by apply bool_decide_eq_true_2. }
  pose proof (wg_counts_running w Hr (g_wg l)) as Hinv.
  rewrite WgAdd_ok by (frame; lia). done.
Qed.

Lemma step_exited w g l :
  goroutines w !! g = Some l → g_pc l = Exited →
  step (ESelectRecv g) w = None ∧ step (ESelectDone g) w = None ∧
  step (EReturn g) w = None.
Proof. intros Hl Hpc. simpl. rewrite Hl. simpl. by rewrite Hpc. Qed.

(** *** The registry *)

(** C6. [Register] never fails and appends the pair it is given; nothing is
    de-duplicated, so the same exporter and channel registered twice are two
    entries, and [Start] spawns a listener for each of them. *)
Theorem register_appends_without_dedup (e : ExporterRegisterer) (exp : ExporterRef)
    (subCh : ChanRef) :
  snd (Register e exp subCh) = None ∧
  handlers (fst (Register e exp subCh)) =
    handlers e ++ [ {| exporter := exp; subscriptionCh := subCh |} ] ∧
  handlers (fst (Register (fst (Register e exp subCh)) exp subCh)) =
    handlers e ++ [ {| exporter := exp; subscriptionCh := subCh |};
                    {| exporter := exp; subscriptionCh := subCh |} ] ∧
  (∀ w, ∃ w', step (ERegister exp subCh) w = Some w' ∧
              handlers (registry w') =
                handlers (registry w) ++ [ {| exporter := exp; subscriptionCh := subCh |} ] ∧
              goroutines w' = goroutines w ∧ trace w' = trace w) ∧
  (∀ ctx wg w w',
      registry w = fst (Register (fst (Register e exp subCh)) exp subCh) →
      Start ctx wg w = Some (w', None) →
      goroutines w' =
        goroutines w ++ (listener_of ctx wg <$> handlers e) ++
        [ listener_of ctx wg {| exporter := exp; subscriptionCh := subCh |};
          listener_of ctx wg {| exporter := exp; subscriptionCh := subCh |} ]).
Proof.
  split; [done|]. split; [done|]. split; [by simpl; rewrite <- app_assoc|].
  split.
  - intros w. eexists. split; [done|]. done.
  - intros ctx wg w w' Hreg Hstart. unfold Start in Hstart.
    destruct (start_range ctx wg (handlers (registry w)) w) as [w1|] eqn:Hsr;
      simpl in Hstart; [|done].
    injection Hstart as <-.
    apply start_range_Some in Hsr as (_ & _ & _ & _ & _ & -> & _).
    rewrite Hreg. simpl. by rewrite <- !app_assoc, !fmap_app.
Qed.

(** C5. One call of [Start] spawns exactly one listener per pair registered
    so far, each after one [Add(1)] on the supplied WaitGroup; in every
    reachable world the counter equals the number of its listeners that have
    not returned, a listener that takes the cancellation case decrements it
    by one and is then finished for good, so [Wait] can return only when all
    of them have exited. *)
Theorem start_spawns_one_listener_per_pair (w : World) (ctx : Context) (wg : WaitGroupRef) :
  Reachable w →
  ∃ w',
    Start ctx wg w = Some (w', None) ∧
    (external ctx = true → step (EStart ctx wg) w = Some w') ∧
    goroutines w' = goroutines w ++ (listener_of ctx wg <$> handlers (registry w)) ∧
    trace w' = trace w ++ start_actions wg (length (goroutines w)) (handlers (registry w)) ∧
    wg_counter w' wg = wg_counter w wg + Z.of_nat (length (handlers (registry w))) ∧
    ∀ w2, Reachable w2 →
      wg_counter w2 wg = Z.of_nat (count (running_on wg) (goroutines w2)) ∧
      (WgWaitReturns wg w2 = true →
       ∀ l, l ∈ goroutines w2 → g_wg l = wg → g_pc l = Exited) ∧
      (∀ g l, goroutines w2 !! g = Some l → g_wg l = wg → g_pc l = AtSelect →
              Done w2 (g_ctx l) = true →
              ∃ w3, step (ESelectDone g) w2 = Some w3 ∧
                    wg_counter w3 wg = wg_counter w2 wg - 1 ∧
                    goroutines w3 !! g = Some (at_pc l Exited)) ∧
      (∀ g l, goroutines w2 !! g = Some l → g_pc l = Exited →
              step (ESelectRecv g) w2 = None ∧ step (ESelectDone g) w2 = None ∧
              step (EReturn g) w2 = None).
Proof.
  intros Hr.
  assert (0 ≤ wg_counter w wg) as Hpos by (rewrite wg_counts_running by done; lia).
  destruct (start_range_ok ctx wg (handlers (registry w)) w Hpos) as [w' Hsr].
  exists w'. unfold Start. simpl. rewrite Hsr. simpl.
  split; [done|].
  split; [intros Hext; simpl; rewrite Hext; unfold Start; by rewrite Hsr|].
  apply start_range_Some in Hsr as (_ & _ & _ & _ & _ & Hg & Ht & Hc).
  split; [done|]. split; [done|]. split; [by rewrite Hc, decide_True|].
  intros w2 Hr2. pose proof (wg_counts_running w2 Hr2 wg) as Hinv.
  split; [done|]. split; [|split].
  - unfold WgWaitReturns. rewrite Z.eqb_eq, Hinv. intros Hz l Hin Hwg.
    assert (running_on wg l = false) as Hrun by (apply (count_zero_inv _ (goroutines w2)); [lia|done]).
    unfold running_on in Hrun. destruct (g_pc l); try done;
      by rewrite bool_decide_eq_true_2 in Hrun.
  - intros g l Hl Hwg Hpc HD. eexists. split; [by apply step_select_done|].
    frame. rewrite Hwg, decide_True by done. split; [lia|].
    apply list_lookup_insert_eq. by eapply lookup_lt_Some.
  - intros g l Hl Hpc. by apply (step_exited w2 g l).
Qed.


(** *** The listener *)



Lemma chan_after_skip w g l x rest :
  chan (emit [AWarn g (warn_text x)] (emit [ARecv g (g_ch l) x] (set_chan (g_ch l) rest w)))
       (g_ch l) = rest.
Proof. frame. by rewrite decide_True. Qed.

(** Malformed items at the head of the channel are received and skipped one
    by one. *)
Lemma skip_junk junk w g l rest :
  goroutines w !! g = Some l → g_pc l = AtSelect → chan w (g_ch l) = junk ++ rest →
  Forall malformed junk →
  ∃ w', run (replicate (length junk) (ESelectRecv g)) w = Some w' ∧
        goroutines w' = goroutines w ∧ chan w' (g_ch l) = rest ∧
        calls_by g (trace w') = calls_by g (trace w).
Proof.
  revert w. induction junk as [|x junk IH]; intros w Hl Hpc Hch Hjunk;
    cbn [length replicate run].
  - by exists w.
  - apply Forall_cons in Hjunk as [Hx Hjunk].
    rewrite (step_recv_malformed w g l x (junk ++ rest)) by done. cbn [mbind option_bind].
    edestruct (IH (emit [AWarn g (warn_text x)]
                     (emit [ARecv g (g_ch l) x] (set_chan (g_ch l) (junk ++ rest) w))))
      as (w' & Hrun & Hg & Hc & Ht); [done|done|apply chan_after_skip|done|].
    exists w'. split; [done|]. split; [by rewrite Hg|]. split; [done|].
    rewrite Ht. frame. by tr_simpl.
Qed.

(** C2. A listener at its [select] that receives an item which is not a
    [*model.Message] logs the warning, calls no handler, and stays at its
    [select] with its WaitGroup untouched; the next well-formed message on
    the channel, whatever malformed items precede it, is still handed to the
    exporter. *)
Theorem malformed_item_skipped (w : World) (g : nat) (l : Goroutine) (x : Item)
    (rest : list Item) :
  goroutines w !! g = Some l → g_pc l = AtSelect → chan w (g_ch l) = x :: rest →
  malformed x →
  ∃ w1,
    step (ESelectRecv g) w = Some w1 ∧
    trace w1 = trace w ++ [ARecv g (g_ch l) x; AWarn g (warn_text x)] ∧
    goroutines w1 = goroutines w ∧ wgs w1 = wgs w ∧ chan w1 (g_ch l) = rest ∧
    calls_by g (trace w1) = calls_by g (trace w) ∧
    ∀ junk p rest', rest = junk ++ IMessagePtr p :: rest' → Forall malformed junk →
      ∃ w2 child,
        run (replicate (length junk) (ESelectRecv g) ++ [ESelectRecv g]) w1 = Some w2 ∧
        calls_by g (trace w2) = calls_by g (trace w) ++ [p] ∧
        goroutines w2 !! g = Some (at_pc l (InHandleMessage child p)) ∧
        chan w2 (g_ch l) = rest'.
Proof.
  intros Hl Hpc Hch Hx. eexists. split; [by apply step_recv_malformed|].
  split; [frame; by rewrite <- app_assoc|]. split; [done|]. split; [done|].
  split; [apply chan_after_skip|]. split; [frame; by tr_simpl|].
  intros junk p rest' -> Hjunk.
  edestruct (skip_junk junk
               (emit [AWarn g (warn_text x)]
                  (emit [ARecv g (g_ch l) x]
                     (set_chan (g_ch l) (junk ++ IMessagePtr p :: rest') w))))
    as (w' & Hrun & Hg & Hc & Ht); [done|done|apply chan_after_skip|done|].
  assert (goroutines w' !! g = Some l) as Hl' by (by rewrite Hg).
  pose proof (step_recv_ptr w' g l p rest' Hl' Hpc Hc) as Hstep.
  rewrite listener_recv_ptr in Hstep.
  eexists _, _. rewrite run_app, Hrun. cbn [mbind option_bind run].
  rewrite Hstep. cbn [mbind option_bind].
  split; [done|]. frame. split; [|split].
  - tr_simpl. rewrite decide_True by done. rewrite Ht. frame. by tr_simpl.
  - apply list_lookup_insert_eq. by eapply lookup_lt_Some.
  - by rewrite decide_True.
Qed.




(** *** Calls, goroutines and registered pairs *)

Lemma step_registry ev w w' :
  step ev w = Some w' →
  handlers (registry w') =
  handlers (registry w) ++
  match ev with
  | ERegister e c => [ {| exporter := e; subscriptionCh := c |} ]
  | _ => []
  end.
Proof.
  intros Hstep. step_inv Hstep; frame; rewrite ?app_nil_r; try done.
  destruct Hsr as (-> & _). done.
Qed.

(** Every call in the trace was made for the pair of some goroutine. *)
Lemma calls_have_goroutine w :
  Reachable w →
  ∀ g h c p, AHandleMessage g h c p ∈ trace w → h ∈ (g_handler <$> goroutines w).
Proof.
  induction 1 as [|w ev w' Hr IH Hstep]; intros k h c p Hin.
  - by apply elem_of_nil in Hin.
  - pose proof (step_handlers _ _ _ Hstep) as Hh.
    apply step_new_calls in Hstep as (new & Htr & Hnew).
    rewrite Htr in Hin. rewrite Hh. apply elem_of_app. left.
    apply elem_of_app in Hin as [Hin|Hin]; [by eapply IH|].
    apply Hnew in Hin as (_ & l & Hl & <- & _).
    apply list_elem_of_fmap. exists l. split; [done|]. by eapply list_elem_of_lookup_2.
Qed.




Lemma pointers_by_value xs : Forall by_value xs → pointers xs = [].
Proof.
  induction 1 as [|x xs Hx _ IH]; [done|].
  change (x :: xs) with ([x] ++ xs). rewrite pointers_app, IH, app_nil_r.
  by destruct x.
Qed.

Lemma omap_sublist_in {X Y} (f f' : X → option Y) (xs : list X) :
  (∀ a y, a ∈ xs → f a = Some y → f' a = Some y) →
  omap f xs `sublist_of` omap f' xs.
Proof.
  induction xs as [|a xs IH]; intros Hff'; [done|].
  assert (omap f xs `sublist_of` omap f' xs) as Hsub
    by (apply IH; intros; apply Hff'; [by right|done]).
  change (a :: xs) with ([a] ++ xs). rewrite !omap_app. simpl.
  destruct (f a) as [y|] eqn:Hfa.
  - rewrite (Hff' a y) by (done || by left). by apply sublist_skip.
  - destruct (f' a); [by apply sublist_cons|done].
Qed.

Lemma omap_ext_in {X Y} (f f' : X → option Y) (xs : list X) :
  (∀ a, a ∈ xs → f a = f' a) → omap f xs = omap f' xs.
Proof.
  induction xs as [|a xs IH]; intros Hff'; [done|].
  change (a :: xs) with ([a] ++ xs). rewrite !omap_app. f_equal.
  - simpl. by rewrite (Hff' a) by (by left).
  - apply IH. intros; apply Hff'; by right.
Qed.

Lemma calling_serving e gs : (count (calling e) gs ≤ count (serving e) gs)%nat.
Proof.
  induction gs as [|l gs IH]; simpl; [done|].
  unfold calling at 1, serving at 1.
  destruct (g_pc l); simpl; destruct (bool_decide (g_e l = e)); lia.
Qed.

Lemma serving_pairs e gs : count (serving e) gs = pairs_of e (g_handler <$> gs).
Proof.
  unfold pairs_of. induction gs as [|l gs IH]; csimpl; [done|].
  rewrite filter_cons. simpl. unfold serving at 1.
  case_bool_decide; case_decide; try done; simpl; by rewrite IH.
Qed.

Lemma pairs_of_app e hs1 hs2 : pairs_of e (hs1 ++ hs2) = (pairs_of e hs1 + pairs_of e hs2)%nat.
Proof. unfold pairs_of. by rewrite filter_app, length_app. Qed.

Lemma pairs_of_unique e hs h1 h2 :
  (pairs_of e hs ≤ 1)%nat → h1 ∈ hs → h2 ∈ hs → exporter h1 = e → exporter h2 = e →
  h1 = h2.
Proof.
  unfold pairs_of. induction hs as [|h hs IH]; intros Hle H1 H2 He1 He2.
  - by apply elem_of_nil in H1.
  - rewrite filter_cons in Hle.
    assert (∀ h', h' ∈ hs → exporter h' = e →
                  (1 ≤ length (filter (λ h, exporter h = e) hs))%nat) as Hpos.
    { intros h' Hin' He'. clear -Hin' He'. induction hs as [|x hs IH'].
      - by apply elem_of_nil in Hin'.
      - rewrite filter_cons. apply elem_of_cons in Hin' as [<-|Hin'].
        + rewrite decide_True by done. simpl. lia.
        + specialize (IH' Hin'). case_decide; simpl; lia. }
    apply elem_of_cons in H1 as [->|H1]; apply elem_of_cons in H2 as [->|H2]; [done| | |].
    + rewrite decide_True in Hle by done. simpl in Hle.
      specialize (Hpos h2 H2 He2). lia.
    + rewrite decide_True in Hle by done. simpl in Hle.
      specialize (Hpos h1 H1 He1). lia.
    + apply IH; try done. case_decide; simpl in Hle; lia.
Qed.

(** With at most one [Start], the goroutines are the listeners of a prefix
    of the registered pairs. *)
Lemma run_one_start evs w0 w :
  run evs w0 = Some w →
  (goroutines w0 = [] ∧ (starts evs ≤ 1)%nat) ∨
  ((g_handler <$> goroutines w0) `prefix_of` handlers (registry w0) ∧ starts evs = 0%nat) →
  (g_handler <$> goroutines w) `prefix_of` handlers (registry w).
Proof.
  revert w0. induction evs as [|ev evs IH]; intros w0 Hrun Hcase; simpl in Hrun.
  - simplify_eq. destruct Hcase as [[-> _]|[? _]]; [apply prefix_nil|done].
  - destruct (step ev w0) as [w1|] eqn:Hstep; simpl in Hrun; [|done].
    pose proof (step_handlers _ _ _ Hstep) as Hh.
    pose proof (step_registry _ _ _ Hstep) as Hreg.
    apply (IH w1 Hrun).
    destruct Hcase as [[Hnil Hle]|[Hpre Hz]].
    + rewrite Hnil in Hh. simpl in Hh. destruct ev; simpl in Hle, Hh, Hreg;
        try (left; split; [by apply fmap_nil_inv in Hh|done]).
      right. split; [|lia]. rewrite Hh, Hreg, app_nil_r. done.
    + right. destruct ev; simpl in Hz; try done; simpl in Hh, Hreg;
        rewrite Hh, Hreg, ?app_nil_r; (split; [|done]); try done.
      by apply prefix_app_r.
Qed.


Lemma delivered_to_sublist_from w e ch :
  Reachable w →
  (∀ h, h ∈ (g_handler <$> goroutines w) → exporter h = e → subscriptionCh h = ch) →
  delivered_to e (trace w) `sublist_of` delivered_from ch (trace w).
Proof.
  intros Hr Hall. apply omap_sublist_in. intros a y Hin Ha.
  destruct a; try done. case_decide as He; [|done].
  rewrite decide_True; [done|]. apply Hall; [|done]. by eapply calls_have_goroutine.
Qed.

Lemma delivered_to_eq_from w e ch :
  Reachable w →
  (∀ h, h ∈ (g_handler <$> goroutines w) → exporter h = e ↔ subscriptionCh h = ch) →
  delivered_to e (trace w) = delivered_from ch (trace w).
Proof.
  intros Hr Hall. apply omap_ext_in. intros a Hin.
  destruct a; try done.
  assert (exporter h = e ↔ subscriptionCh h = ch) as Hiff
    by (apply Hall; by eapply calls_have_goroutine).
  repeat case_decide; try done; tauto.
Qed.

(** C4 (amended). An exporter named by exactly one registered pair, in a
    process that calls [Start] at most once, has at most one [HandleMessage]
    call in flight at any time; the messages handed to it are, in order, a
    subsequence of the well-formed items sent on its channel, and exactly
    those not still queued when no other pair shares the channel. *)
Theorem exporter_registered_once_is_serialized (evs : list Event) (w : World)
    (e : ExporterRef) (ch : ChanRef) :
  run evs init = Some w → (starts evs ≤ 1)%nat →
  (pairs_of e (handlers (registry w)) ≤ 1)%nat →
  {| exporter := e; subscriptionCh := ch |} ∈ handlers (registry w) →
  in_flight e (trace w) ≤ 1 ∧
  delivered_to e (trace w) `sublist_of` pointers (sent ch (trace w)) ∧
  ((∀ h, h ∈ handlers (registry w) → subscriptionCh h = ch → exporter h = e) →
   pointers (sent ch (trace w)) = delivered_to e (trace w) ++ pointers (chan w ch)).
Proof.
  intros Hrun Hstarts Hpairs Hin.
  assert (Reachable w) as Hr by (eapply run_reachable; [constructor|done]).
  assert ((g_handler <$> goroutines w) `prefix_of` handlers (registry w)) as [k Hk].
  { eapply run_one_start; [done|]. left. done. }
  assert (∀ h, h ∈ (g_handler <$> goroutines w) → h ∈ handlers (registry w)) as Hsub.
  { intros h Hh. rewrite Hk. apply elem_of_app. by left. }
  assert (∀ h, h ∈ (g_handler <$> goroutines w) → exporter h = e → subscriptionCh h = ch)
    as Hch.
  { intros h Hh He.
    by rewrite (pairs_of_unique e _ h {| exporter := e; subscriptionCh := ch |}
                  Hpairs (Hsub h Hh) Hin He eq_refl). }
  split; [|split].
  - rewrite in_flight_counts_calling by done.
    pose proof (calling_serving e (goroutines w)) as Hcs.
    rewrite serving_pairs in Hcs. rewrite Hk, pairs_of_app in Hpairs. lia.
  - rewrite sent_received_queued, pointers_app by done.
    rewrite <- delivered_from_received by done.
    etrans; [by apply delivered_to_sublist_from|]. by apply sublist_inserts_r.
  - intros Hshare.
    rewrite sent_received_queued, pointers_app by done.
    rewrite <- delivered_from_received by done. f_equal. symmetry.
    apply delivered_to_eq_from; [done|]. intros h Hh. split; [by apply Hch|].
    intros Hc. apply Hshare; [by apply Hsub|done].
Qed.

(** C9. The listener asserts the pointer type, so a [model.Message] sent by
    value, the shape the watcher tests assert on what a subscriber receives,
    fails the assertion: on a channel that carries only such values every
    item is dropped with the warning and no [HandleMessage] call is ever fed
    from it. *)
Theorem messages_sent_by_value_are_dropped (w : World) (ch : ChanRef) :
  Reachable w → Forall by_value (sent ch (trace w)) →
  delivered_from ch (trace w) = [] ∧
  Forall (λ x, ∃ m, assert_MessageVal x = (Some m, true) ∧
                    assert_MessagePtr x = (None, false)) (sent ch (trace w)) ∧
  ∀ g l m rest,
    goroutines w !! g = Some l → g_pc l = AtSelect → g_ch l = ch →
    chan w ch = IMessageVal m :: rest →
    ∃ w1, step (ESelectRecv g) w = Some w1 ∧
          trace w1 = trace w ++ [ARecv g ch (IMessageVal m);
                                 AWarn g "Unexpected type model.Message, skipping item"] ∧
          goroutines w1 = goroutines w ∧
          delivered_from ch (trace w1) = [].
Proof.
  intros Hr Hval.
  assert (delivered_from ch (trace w) = []) as Hnone.
  { rewrite delivered_from_received by done. apply pointers_by_value.
    rewrite sent_received_queued in Hval by done. by apply Forall_app in Hval as [? _]. }
  split; [done|]. split.
  - eapply Forall_impl; [done|]. intros [] Hx; try done. by eexists.
  - intros g l m rest Hl Hpc <- Hch. eexists.
    split; [by apply step_recv_malformed|]. frame.
    split; [by rewrite <- app_assoc|]. split; [done|].
    tr_simpl. by rewrite Hnone.
Qed.



(** *** The statements on the sample schedules *)

Lemma world_after_run evs w : run evs init = Some w → world_after evs = w.
Proof. unfold world_after. by intros ->. Qed.

Lemma world_after_reachable evs :
  run evs init = Some (world_after evs) → Reachable (world_after evs).
Proof. apply run_reachable. constructor. Qed.


(** C2, on [sched_value_then_pointer]: the value is skipped with no call,
    the pointer behind it is delivered. *)
Lemma malformed_item_skipped_witness :
  malformed (IMessageVal sample_message) ∧
  ∃ w1 w2,
    step (ESelectRecv 0) (world_after sched_value_then_pointer) = Some w1 ∧
    calls_by 0 (trace w1) = [] ∧
    run [ESelectRecv 0] w1 = Some w2 ∧
    calls_by 0 (trace w2) = [Some sample_message].
Proof.
  split; [reflexivity|].
  destruct (malformed_item_skipped
              (world_after sched_value_then_pointer) 0
              (listener_of root_scope 0 {| exporter := 7; subscriptionCh := 3 |})
              (IMessageVal sample_message) [IMessagePtr (Some sample_message)])
    as (w1 & Hstep & _ & _ & _ & _ & Hc & Hnext);
    [vm_compute; reflexivity | reflexivity | vm_compute; reflexivity | reflexivity |].
  destruct (Hnext [] (Some sample_message) [] eq_refl (Forall_nil_2 _))
    as (w2 & child & Hrun & Hc2 & _).
  exists w1, w2. split; [exact Hstep|]. split; [rewrite Hc; vm_compute; reflexivity|].
  split; [exact Hrun|]. rewrite Hc2. vm_compute. reflexivity.
Defined.



(** C4, as stated, fails on [sched_same_exporter_twice]: the exporter is
    named by two registered pairs, each has its listener, and both are inside
    its [HandleMessage] at once. *)
Lemma same_exporter_twice_runs_concurrently :
  ∃ w, run sched_same_exporter_twice init = Some w ∧
       handlers (registry w) = [ {| exporter := 7; subscriptionCh := 3 |};
                                 {| exporter := 7; subscriptionCh := 4 |} ] ∧
       starts sched_same_exporter_twice = 1%nat ∧
       in_flight 7 (trace w) = 2.
Proof.
  eexists. split; [vm_compute; reflexivity|]. repeat split; vm_compute; reflexivity.
Qed.

(** C4 (amended), on [sched_delivered]. *)
Lemma exporter_registered_once_witness :
  run sched_delivered init = Some (world_after sched_delivered) ∧
  in_flight 7 (trace (world_after sched_delivered)) ≤ 1 ∧
  pointers (sent 3 (trace (world_after sched_delivered)))
    = delivered_to 7 (trace (world_after sched_delivered)).
Proof.
  assert (run sched_delivered init = Some (world_after sched_delivered)) as Hrun
    by (vm_compute; reflexivity).
  split; [exact Hrun|].
  destruct (exporter_registered_once_is_serialized
              sched_delivered (world_after sched_delivered) 7 3 Hrun)
    as (Hone & _ & Heq).
  - vm_compute. apply le_n.
  - vm_compute. apply le_n.
  - vm_compute. apply list_elem_of_here.
  - split; [exact Hone|]. rewrite Heq.
    + vm_compute. reflexivity.
    + vm_compute. intros h Hin _. apply list_elem_of_singleton in Hin. by rewrite Hin.
Defined.

(** C5, on two registered pairs. *)
Lemma start_spawns_witness :
  Reachable (world_after [ERegister 7 3; ERegister 8 4]) ∧
  ∃ w', Start root_scope 0 (world_after [ERegister 7 3; ERegister 8 4]) = Some (w', None) ∧
        goroutines w' =
          [ listener_of root_scope 0 {| exporter := 7; subscriptionCh := 3 |};
            listener_of root_scope 0 {| exporter := 8; subscriptionCh := 4 |} ] ∧
        wg_counter w' 0 = 2.
Proof.
  assert (Reachable (world_after [ERegister 7 3; ERegister 8 4])) as Hr
    by (apply world_after_reachable; vm_compute; reflexivity).
  split; [exact Hr|].
  destruct (start_spawns_one_listener_per_pair
              (world_after [ERegister 7 3; ERegister 8 4]) root_scope 0 Hr)
    as (w' & Hstart & _ & Hg & _ & Hwg & _).
  exists w'. split; [exact Hstart|]. split; [exact Hg|]. exact Hwg.
Defined.

(** C9, on [sched_value_received]. *)
Lemma messages_sent_by_value_witness :
  Forall by_value (sent 3 (trace (world_after sched_value_received))) ∧
  received 3 (trace (world_after sched_value_received)) = [IMessageVal sample_message] ∧
  delivered_from 3 (trace (world_after sched_value_received)) = [].
Proof.
  assert (Reachable (world_after sched_value_received)) as Hr
    by (apply world_after_reachable; vm_compute; reflexivity).
  assert (Forall by_value (sent 3 (trace (world_after sched_value_received)))) as Hval
    by (vm_compute; apply Forall_cons; split; [reflexivity|apply Forall_nil_2]).
  split; [exact Hval|]. split; [vm_compute; reflexivity|].
  exact (proj1 (messages_sent_by_value_are_dropped _ 3 Hr Hval)).
Defined.


(** [Start] called a second time breaks the serialization of an exporter
    registered once. *)
Example second_start_breaks_serialization :
  ∃ w, run sched_started_twice init = Some w ∧
       handlers (registry w) = [ {| exporter := 7; subscriptionCh := 3 |} ] ∧
       in_flight 7 (trace w) = 2.
Proof.
  eexists. split; [vm_compute; reflexivity|]. split; vm_compute; reflexivity.
Qed.

End RegistryFacts.

(** * Facts about the container watcher *)

Module WatchFacts.
Import Model Global Watch.

(** *** Multicast *)

Lemma emits_of_send_emit e ch x c :
  emits_of (send_emit ch x e) c = if decide (c = ch) then emits_of e ch ++ [x] else emits_of e c.
Proof.
  unfold emits_of, send_emit, set_emits; simpl.
  case_decide; subst; [by rewrite lookup_insert_eq | by rewrite lookup_insert_ne].
Qed.

Lemma multicast_out subs x e c :
  c ∉ subs → emits_of (multicast subs x e) c = emits_of e c.
Proof.
  revert e. induction subs as [|ch subs IH]; intros e Hc; [done|].
  apply not_elem_of_cons in Hc as [Hne Hc].
  unfold multicast in *. simpl. rewrite IH by done.
  rewrite emits_of_send_emit. by rewrite decide_False.
Qed.

(** Each registered channel receives one copy. *)
Lemma multicast_in subs x e c :
  NoDup subs → c ∈ subs → emits_of (multicast subs x e) c = emits_of e c ++ [x].
Proof.
  revert e. induction subs as [|ch subs IH]; intros e Hnd Hc.
  - by apply elem_of_nil in Hc.
  - apply NoDup_cons in Hnd as [Hnot Hnd].
    change (multicast (ch :: subs) x e) with (multicast subs x (send_emit ch x e)).
    apply elem_of_cons in Hc as [->|Hc].
    + rewrite multicast_out by done. rewrite emits_of_send_emit. by rewrite decide_True.
    + rewrite IH by done. rewrite emits_of_send_emit.
      rewrite decide_False; [done|]. by intros ->.
Qed.

Lemma multicast_frame subs x e :
  clock (multicast subs x e) = clock e ∧
  next_chan (multicast subs x e) = next_chan e ∧
  msg_chans (multicast subs x e) = msg_chans e ∧
  err_chans (multicast subs x e) = err_chans e ∧
  sleepers (multicast subs x e) = sleepers e.
Proof.
  revert e. induction subs as [|ch subs IH]; intros e; [done|].
  change (multicast (ch :: subs) x e) with (multicast subs x (send_emit ch x e)).
  destruct (IH (send_emit ch x e)) as (-> & -> & -> & -> & ->). done.
Qed.

Lemma msgs_of_multicast subs x e m : msgs_of (multicast subs x e) m = msgs_of e m.
Proof. unfold msgs_of. by destruct (multicast_frame subs x e) as (_ & _ & -> & _). Qed.

Lemma errs_of_multicast subs x e r : errs_of (multicast subs x e) r = errs_of e r.
Proof. unfold errs_of. by destruct (multicast_frame subs x e) as (_ & _ & _ & -> & _). Qed.

Lemma msgs_of_set_msgs e m q m' :
  msgs_of (set_msgs m q e) m' = if decide (m' = m) then q else msgs_of e m'.
Proof.
  unfold msgs_of, set_msgs; simpl.
  case_decide; subst; [by rewrite lookup_insert_eq | by rewrite lookup_insert_ne].
Qed.

Section Generic.
Context {A : Type} `{DockerAdapter A}.

(** *** Emission *)

Lemma emit_event_fields name (w : ContainerWatch A) :
  conf (emit_event name w) = conf w ∧ adapter (emit_event name w) = adapter w ∧
  state (emit_event name w) = state w ∧ subscribers (emit_event name w) = subscribers w ∧
  stop_called (emit_event name w) = stop_called w ∧ calls (emit_event name w) = calls w ∧
  emitted (emit_event name w) = emitted w ++ [lifecycle_event name (env w)] ∧
  clock (env (emit_event name w)) = clock (env w).
Proof.
  repeat split; try done. simpl. by destruct (multicast_frame (subscribers w)
    (IMessageVal (lifecycle_event name (env w))) (env w)) as (-> & _).
Qed.

Lemma emit_event_received name (w : ContainerWatch A) ch :
  NoDup (subscribers w) → ch ∈ subscribers w →
  emits_of (env (emit_event name w)) ch =
  emits_of (env w) ch ++ [IMessageVal (lifecycle_event name (env w))].
Proof. intros. by apply multicast_in. Qed.

(** *** The cases of the streaming [select] *)

Lemma select_msg (w : ContainerWatch A) c m errs x q :
  state w = Streaming c (Some m) errs → msgs_of (env w) m = x :: q →
  wstep LSelectMsg w =
  Some (match translate x with
        | Some name => emit_event name (set_env (set_msgs m q (env w)) w)
        | None => set_env (set_msgs m q (env w)) w
        end).
Proof. intros Hs Hm. simpl. rewrite Hs, Hm. done. Qed.

Lemma translate_start x : Status x = "start" → translate x = Some AgentNodeUpName.
Proof. unfold translate. by intros ->. Qed.

Lemma translate_restart x : Status x = "restart" → translate x = Some AgentNodeRestartName.
Proof. unfold translate. by intros ->. Qed.

Lemma translate_die x s n :
  Status x = "die" → Attributes (Actor_ x) !! "exitCode" = Some s →
  NilEmpty.int_of_string s = Some n → Z.of_int n ≠ 0 →
  translate x = Some AgentNodeDownName.
Proof.
  unfold translate, exit_nonzero. intros -> -> -> Hn. simpl.
  destruct (Z.eqb_spec (Z.of_int n) 0); done.
Qed.

Lemma observed_app (w w' : ContainerWatch A) ch xs :
  emits_of (env w') ch = emits_of (env w) ch ++ (IMessageVal <$> xs) →
  observed ch w' = observed ch w ++ (Name <$> xs).
Proof.
  intros Heq. unfold observed. rewrite Heq, omap_app. f_equal. clear Heq.
  induction xs as [|x xs IH]; [done|]. csimpl. by rewrite IH.
Qed.

(** Discovery, when the adapter finds the resource and opens the stream. *)
Lemma discover_streams (w0 : ContainerWatch A) cs c a' e2 m r :
  GetRunningContainers (adapter w0) = (cs, None) →
  MatchContainer (adapter w0) cs (Regex (conf w0)) = (c, None) →
  DockerEvents (adapter w0) {| Filters := Names c |}
    (multicast (subscribers w0)
       (IMessageVal (lifecycle_event AgentNodeUpName (env w0))) (env w0))
    = (a', e2, (m, r, None)) →
  discover w0 =
  {| conf := conf w0; adapter := a'; state := Streaming c m r;
     subscribers := subscribers w0; stop_called := stop_called w0;
     calls := calls w0 ++ [CGetRunningContainers; CMatchContainer; CDockerEvents];
     emitted := emitted w0 ++ [lifecycle_event AgentNodeUpName (env w0)];
     env := e2 |}.
Proof.
  intros Hget Hmatch Hopen. unfold discover. cbn [adapter set_state].
  rewrite Hget. cbn [adapter called conf set_state]. rewrite Hmatch.
  unfold open_subscription.
  cbn [adapter called conf set_state emit_event env emitted subscribers set_env stop_called
       calls state].
  rewrite Hopen.
  cbn [adapter called conf set_state emit_event env emitted subscribers set_env stop_called
       calls state].
  unfold set_state, called, set_env, emit_event. simpl. by rewrite <- !app_assoc.
Qed.

(** C7. When discovery matches a resource and the stream the adapter opens
    holds [start], [restart] and [die] with exit attribute 1, in that order,
    [Start] emits the discovery [agent.node.up] before anything is read from
    the stream, and after the three messages every channel subscribed before
    [Start] has received, by value and in this order, the events
    [agent.node.up], [agent.node.up], [agent.node.restart],
    [agent.node.down]. *)
Theorem happy_path_observed (w0 : ContainerWatch A) (cs : list Container) (c : Container)
    (a' : A) (e2 : Env) (m : nat) (r : option nat) (x1 x2 x3 : EventsMessage) :
  state w0 = Created →
  NoDup (subscribers w0) →
  GetRunningContainers (adapter w0) = (cs, None) →
  MatchContainer (adapter w0) cs (Regex (conf w0)) = (c, None) →
  DockerEvents (adapter w0) {| Filters := Names c |} (env (emit_event AgentNodeUpName w0))
    = (a', e2, (Some m, r, None)) →
  emit_chans e2 = emit_chans (env (emit_event AgentNodeUpName w0)) →
  msgs_of e2 m = [x1; x2; x3] →
  Status x1 = "start" → Status x2 = "restart" → Status x3 = "die" →
  Attributes (Actor_ x3) !! "exitCode" = Some "1" →
  ∃ w1 w ms,
    wstep LStart w0 = Some w1 ∧
    emitted w1 = emitted w0 ++ take 1 ms ∧
    calls w1 = calls w0 ++ [CGetRunningContainers; CMatchContainer; CDockerEvents] ∧
    wrun [LSelectMsg; LSelectMsg; LSelectMsg] w1 = Some w ∧
    emitted w = emitted w0 ++ ms ∧
    Name <$> ms = [AgentNodeUpName; AgentNodeUpName; AgentNodeRestartName;
                   AgentNodeDownName] ∧
    Forall (λ x, Type_ x = MessageType_event) ms ∧
    (∀ ch, ch ∈ subscribers w0 →
           emits_of (env w) ch = emits_of (env w0) ch ++ (IMessageVal <$> ms) ∧
           observed ch w = observed ch w0 ++
             [AgentNodeUpName; AgentNodeUpName; AgentNodeRestartName; AgentNodeDownName]) ∧
    state w = Streaming c (Some m) r ∧
    calls w = calls w1.
Proof.
  intros Hs Hnd Hget Hmatch Hopen Hemit Hmsgs H1 H2 H3 Hexit.
  pose proof (discover_streams w0 cs c a' e2 (Some m) r Hget Hmatch Hopen) as Hd.
  set (w1 := discover w0) in *.
  assert (wstep LStart w0 = Some w1) as Hstart by (simpl; by rewrite Hs).
  (* the three messages *)
  set (u1 := set_env (set_msgs m [x2; x3] (env w1)) w1).
  set (w2 := emit_event AgentNodeUpName u1).
  set (u2 := set_env (set_msgs m [x3] (env w2)) w2).
  set (w3 := emit_event AgentNodeRestartName u2).
  set (u3 := set_env (set_msgs m [] (env w3)) w3).
  set (w4 := emit_event AgentNodeDownName u3).
  assert (wstep LSelectMsg w1 = Some w2) as Hstep1.
  { rewrite (select_msg w1 c m r x1 [x2; x3]); [by rewrite translate_start| |];
      by rewrite Hd. }
  assert (wstep LSelectMsg w2 = Some w3) as Hstep2.
  { rewrite (select_msg w2 c m r x2 [x3]); [by rewrite translate_restart| |].
    - subst w2 u1. simpl. by rewrite Hd.
    - subst w2 u1. simpl. rewrite msgs_of_multicast, msgs_of_set_msgs.
      by rewrite decide_True. }
  assert (wstep LSelectMsg w3 = Some w4) as Hstep3.
  { rewrite (select_msg w3 c m r x3 []);
      [by erewrite translate_die by (done || reflexivity)| |].
    - subst w3 u2 w2 u1. simpl. by rewrite Hd.
    - subst w3 u2. simpl. rewrite msgs_of_multicast, msgs_of_set_msgs.
      by rewrite decide_True. }
  exists w1, w4,
    [lifecycle_event AgentNodeUpName (env w0); lifecycle_event AgentNodeUpName (env u1);
     lifecycle_event AgentNodeRestartName (env u2);
     lifecycle_event AgentNodeDownName (env u3)].
  split; [done|]. split; [by rewrite Hd|]. split; [by rewrite Hd|].
  split.
  { cbn [wrun]. rewrite Hstep1. cbn [mbind option_bind]. rewrite Hstep2.
    cbn [mbind option_bind]. by rewrite Hstep3. }
  split. { subst w4 u3 w3 u2 w2 u1. simpl. rewrite Hd. simpl. by rewrite <- !app_assoc. }
  split; [done|]. split; [by repeat constructor|].
  split; [|split; [subst w4 u3 w3 u2 w2 u1; simpl; by rewrite Hd
                  |subst w4 u3 w3 u2 w2 u1; simpl; by rewrite Hd]].
  intros ch Hch.
  assert (subscribers w1 = subscribers w0) as Hsubs by (by rewrite Hd).
  assert (emits_of (env w4) ch = emits_of (env w0) ch ++
            (IMessageVal <$> [lifecycle_event AgentNodeUpName (env w0);
                              lifecycle_event AgentNodeUpName (env u1);
                              lifecycle_event AgentNodeRestartName (env u2);
                              lifecycle_event AgentNodeDownName (env u3)])) as Heq.
  { subst w4. rewrite emit_event_received by (subst u3 w3 u2 w2 u1; simpl; by rewrite Hsubs).
    replace (emits_of (env u3) ch) with (emits_of (env w3) ch) by done.
    subst w3. rewrite emit_event_received by (subst u2 w2 u1; simpl; by rewrite Hsubs).
    replace (emits_of (env u2) ch) with (emits_of (env w2) ch) by done.
    subst w2. rewrite emit_event_received by (subst u1; simpl; by rewrite Hsubs).
    replace (emits_of (env u1) ch) with (emits_of (env w1) ch) by done.
    replace (emits_of (env w1) ch) with
      (emits_of (env w0) ch ++ [IMessageVal (lifecycle_event AgentNodeUpName (env w0))]).
    - csimpl. by rewrite <- !app_assoc.
    - rewrite Hd. unfold emits_of at 2. simpl. rewrite Hemit.
      symmetry. by apply (emit_event_received AgentNodeUpName w0 ch). }
  split; [done|]. by rewrite (observed_app w0 w4 ch _ Heq).
Qed.


End Generic.

(** C7, on the healthy double, as [TestContainerWatch_happy] sets it up. *)
Lemma happy_path_witness :
  state happy_watch = Created ∧
  ∃ w, wrun [LStart; LSelectMsg; LSelectMsg; LSelectMsg] happy_watch = Some w ∧
       observed 0 w = [AgentNodeUpName; AgentNodeUpName; AgentNodeRestartName;
                       AgentNodeDownName] ∧
       Forall by_value (emits_of (env w) 0).
Proof.
  split; [reflexivity|].
  edestruct (happy_path_observed happy_watch)
    as (w1 & w & ms & Hstart & _ & _ & Hrun & _ & _ & _ & Hobs & _).
  - reflexivity.
  - apply NoDup_singleton.
  - reflexivity.
  - reflexivity.
  - reflexivity.
  - vm_compute. reflexivity.
  - reflexivity.
  - reflexivity.
  - reflexivity.
  - reflexivity.
  - reflexivity.
  - exists w. split; [cbn [wrun]; rewrite Hstart; exact Hrun|].
    destruct (Hobs 0%nat (list_elem_of_here _ _)) as [Hem Ho].
    split; [exact Ho|]. rewrite Hem. apply Forall_app. split.
    + apply Forall_nil_2.
    + apply Forall_fmap, Forall_true. intros m. reflexivity.
Defined.


End WatchFacts.

(** * Laws of the registry over whole executions *)

Module RegistryLaws.
Import Model Global RegistryFacts.

(** *** Child contexts *)

Lemma ctx_id_derive parent d id : ctx_id (derive parent d id) = Some id.
Proof. unfold derive. destruct (Deadline parent); [case_match|]; done. Qed.

Lemma ctx_parent_derive parent d id : ctx_parent (derive parent d id) = Some parent.
Proof. unfold derive. destruct (Deadline parent); [case_match|]; done. Qed.

Lemma Deadline_Done w c d : Deadline c = Some d → d ≤ now w → Done w c = true.
Proof.
  induction c as [|id p IH|id d' p IH]; simpl; intros Hd Hle; [done| |].
  - rewrite IH by done. by rewrite orb_true_r.
  - simplify_eq. apply Z.leb_le in Hle. rewrite Hle. by rewrite orb_true_r.
Qed.

Lemma in_flight_ctx_at_pc l pc :
  in_flight_ctx (at_pc l pc) = match pc with InHandleMessage c _ => Some c | _ => None end.
Proof. done. Qed.

Lemma cancelled_cancel c w :
  cancelled (cancel c w) =
  match ctx_id c with Some id => {[ id ]} ∪ cancelled w | None => cancelled w end.
Proof. by destruct c. Qed.

Lemma spawned_idle ctx r (hs : list ExporterHandler) (i : nat) l :
  (listener_of ctx r <$> hs) !! i = Some l → in_flight_ctx l = None.
Proof. rewrite list_lookup_fmap. destruct (hs !! i); intros; by simplify_eq/=. Qed.

Lemma idle_not_in_flight l c : g_pc l = AtSelect → in_flight_ctx l ≠ Some c.
Proof. unfold in_flight_ctx. by intros ->. Qed.

Lemma children_inv w :
  Reachable w →
  (∀ k, Own k ∈ cancelled w → (k < next_id w)%nat) ∧
  (∀ g l c, goroutines w !! g = Some l → in_flight_ctx l = Some c →
     ∃ k d, c = derive (g_ctx l) d (Own k) ∧ (k < next_id w)%nat ∧ Own k ∉ cancelled w) ∧
  (∀ g g' l l' c c', goroutines w !! g = Some l → goroutines w !! g' = Some l' →
     in_flight_ctx l = Some c → in_flight_ctx l' = Some c' → ctx_id c = ctx_id c' → g = g') ∧
  (∀ k, (k < next_id w)%nat → Own k ∈ cancelled w ∨
     ∃ g l c, goroutines w !! g = Some l ∧ in_flight_ctx l = Some c ∧
              ctx_id c = Some (Own k)).
Proof.
  induction 1 as [|w ev w' Hr (I1 & I2 & I3 & I4) Hstep].
  - split; [intros k Hk; by apply elem_of_empty in Hk|].
    split; [intros g l c Hl; simpl in Hl; by rewrite lookup_nil in Hl|].
    split; [intros g g' l l' c c' Hl; simpl in Hl; by rewrite lookup_nil in Hl|].
    intros k Hk. simpl in Hk. lia.
  - step_inv Hstep; frame.
    + done.
    + done.
    + (* the owner of a scope cancels it *)
      split; [|split; [|split]].
      * intros k [Hk|Hk]%elem_of_union; [by apply elem_of_singleton in Hk|by apply I1].
      * intros g l c Hl Hc. destruct (I2 g l c Hl Hc) as (k & d & -> & Hk & Hnot).
        exists k, d. split; [done|]. split; [done|].
        intros [Hin|Hin]%elem_of_union; [by apply elem_of_singleton in Hin|done].
      * done.
      * intros k Hk. destruct (I4 k Hk) as [Hin|Hown]; [left|by right].
        by apply elem_of_union_r.
    + done.
    + (* Start *)
      destruct Hsr as (_ & _ & -> & -> & _ & -> & _ & _).
      split; [done|]. split; [|split].
      * intros g l c [Hl|[_ Hl]]%lookup_app_Some Hc; [by eapply I2|].
        apply spawned_idle in Hl. congruence.
      * intros g g' l l' c c' [Hl|[_ Hl]]%lookup_app_Some [Hl'|[_ Hl']]%lookup_app_Some Hc Hc';
          try (apply spawned_idle in Hl; congruence);
          try (apply spawned_idle in Hl'; congruence).
        by eapply I3.
      * intros k Hk. destruct (I4 k Hk) as [Hin|(g & l & c & Hl & Hc & Hid)]; [by left|].
        right. exists g, l, c. split; [|done]. apply lookup_app_l_Some. done.
    + (* a well-formed message is received *)
      split; [intros k Hk; apply I1 in Hk; lia|]. split; [|split].
      * intros g0 l0 c [(<- & <- & _)|[Hne Hl0]]%list_lookup_insert_Some Hc.
        -- rewrite in_flight_ctx_at_pc in Hc. simplify_eq.
           exists (next_id w), (now w + DefaultExporterTimeout). split; [done|].
           split; [lia|]. intros Hin. apply I1 in Hin. lia.
        -- destruct (I2 g0 l0 c Hl0 Hc) as (k & d & -> & Hk & Hnot).
           exists k, d. split; [done|]. split; [lia|done].
      * intros g0 g1 l0 l1 c0 c1
          [(<- & <- & _)|[Hne0 Hl0]]%list_lookup_insert_Some
          [(<- & <- & _)|[Hne1 Hl1]]%list_lookup_insert_Some Hc0 Hc1 Hid; [done| | |].
        -- rewrite in_flight_ctx_at_pc in Hc0. simplify_eq.
           destruct (I2 g1 l1 c1 Hl1 Hc1) as (k & d & -> & Hk & _).
           rewrite !ctx_id_derive in Hid. simplify_eq. lia.
        -- rewrite in_flight_ctx_at_pc in Hc1. simplify_eq.
           destruct (I2 g0 l0 c0 Hl0 Hc0) as (k & d & -> & Hk & _).
           rewrite !ctx_id_derive in Hid. simplify_eq. lia.
        -- by eapply I3.
      * intros k Hk. destruct (decide (k = next_id w)) as [->|Hne].
        -- right. eexists g, _, _. split; [apply list_lookup_insert_eq; by eapply lookup_lt_Some|].
           rewrite in_flight_ctx_at_pc. split; [done|]. apply ctx_id_derive.
        -- destruct (I4 k ltac:(lia)) as [Hin|(g0 & l0 & c0 & Hl0 & Hc0 & Hid)]; [by left|].
           right. exists g0, l0, c0. split; [|done].
           rewrite list_lookup_insert_ne; [done|]. intros <-. simplify_eq.
           by eapply idle_not_in_flight.
    + done.
    + (* the cancellation case *)
      split; [done|]. split; [|split].
      * intros g0 l0 c [(<- & <- & _)|[Hne Hl0]]%list_lookup_insert_Some Hc; [done|].
        by eapply I2.
      * intros g0 g1 l0 l1 c0 c1
          [(<- & <- & _)|[Hne0 Hl0]]%list_lookup_insert_Some
          [(<- & <- & _)|[Hne1 Hl1]]%list_lookup_insert_Some Hc0 Hc1 Hid; try done.
        by eapply I3.
      * intros k Hk. destruct (I4 k Hk) as [Hin|(g0 & l0 & c0 & Hl0 & Hc0 & Hid)]; [by left|].
        right. exists g0, l0, c0. split; [|done].
        rewrite list_lookup_insert_ne; [done|]. intros <-. simplify_eq.
        by eapply idle_not_in_flight.
    + (* the handler returns *)
      assert (in_flight_ctx l = Some ctx) as Hctx by (unfold in_flight_ctx; by rewrite Hpc).
      destruct (I2 g l ctx Hg Hctx) as (k0 & d0 & -> & Hk0 & Hnot0).
      rewrite cancelled_cancel, ctx_id_derive. frame.
      split; [|split; [|split]].
      * intros k [Hk|Hk]%elem_of_union; [|by apply I1].
        apply elem_of_singleton in Hk. by simplify_eq.
      * intros g0 l0 c [(<- & <- & _)|[Hne Hl0]]%list_lookup_insert_Some Hc; [done|].
        destruct (I2 g0 l0 c Hl0 Hc) as (k & d & -> & Hk & Hnot).
        exists k, d. split; [done|]. split; [done|].
        intros [Hin|Hin]%elem_of_union; [|done].
        apply elem_of_singleton in Hin. simplify_eq.
        apply Hne. eapply (I3 g g0); [done|done|done|done|].
        by rewrite !ctx_id_derive.
      * intros g0 g1 l0 l1 c0 c1
          [(<- & <- & _)|[Hne0 Hl0]]%list_lookup_insert_Some
          [(<- & <- & _)|[Hne1 Hl1]]%list_lookup_insert_Some Hc0 Hc1 Hid; try done.
        by eapply I3.
      * intros k Hk. destruct (I4 k Hk) as [Hin|(g0 & l0 & c0 & Hl0 & Hc0 & Hid)];
          [left; by apply elem_of_union_r|].
        destruct (decide (g0 = g)) as [->|Hne].
        -- left. simplify_eq. rewrite ctx_id_derive in Hid. simplify_eq.
           apply elem_of_union_l. by apply elem_of_singleton.
        -- right. exists g0, l0, c0. split; [|done]. by rewrite list_lookup_insert_ne.
Qed.


(** *** Shutdown *)

Lemma wind_down_length g gs : (length (wind_down g gs) ≤ 2 * length gs)%nat.
Proof.
  revert g. induction gs as [|l gs IH]; intros g; simpl; [lia|].
  rewrite length_app. specialize (IH (S g)). destruct (g_pc l); simpl; lia.
Qed.

Lemma insert_middle {X} (pre : list X) x y gs :
  <[length pre := y]> (pre ++ x :: gs) = pre ++ y :: gs.
Proof. induction pre as [|z pre IH]; simpl; [done|]. by rewrite IH. Qed.

Lemma at_pc_same l : at_pc l (g_pc l) = l.
Proof. by destruct l. Qed.

Lemma wind_down_run gs :
  ∀ pre w, Reachable w → goroutines w = pre ++ gs →
    (∀ l, l ∈ gs → Done w (g_ctx l) = true) →
    ∃ w', run (wind_down (length pre) gs) w = Some w' ∧ Reachable w' ∧
          goroutines w' = pre ++ ((λ l, at_pc l Exited) <$> gs) ∧
          chans w' = chans w ∧ registry w' = registry w ∧ now w' = now w ∧
          (∀ e, delivered_to e (trace w') = delivered_to e (trace w)).
Proof.
  induction gs as [|l gs IH]; intros pre w Hr Hg HD.
  - exists w. simpl. by rewrite app_nil_r in *.
  - assert (goroutines w !! length pre = Some l) as Hl
      by (rewrite Hg; apply list_lookup_middle; done).
    assert (Done w (g_ctx l) = true) as HDl by (apply HD, list_elem_of_here).
    assert (∀ w1 ev, step ev w = Some w1 → ∀ l', l' ∈ gs → Done w1 (g_ctx l') = true) as Hkeep.
    { intros w1 ev Hstep l' Hin. apply step_mono in Hstep as [? ?].
      eapply Done_mono; [done|done|]. apply HD. by apply list_elem_of_further. }
    cbn [wind_down]. destruct (g_pc l) as [|c p|] eqn:Hpc.
    + (* at the select *)
      pose proof (step_select_done w (length pre) l Hr Hl Hpc HDl) as Hstep.
      edestruct (IH (pre ++ [at_pc l Exited])) as (w' & Hrun & Hr' & Hg' & Hc' & Hreg' & Hnow' & Hd');
        [by eapply Reachable_step| |by eapply Hkeep|].
      { frame. by rewrite Hg, insert_middle, <- app_assoc. }
      rewrite length_app, Nat.add_1_r in Hrun. exists w'.
      split; [cbn [app run]; rewrite Hstep; exact Hrun|].
      split; [done|]. split; [by rewrite Hg', <- app_assoc|].
      split; [by rewrite Hc'|]. split; [by rewrite Hreg'|]. split; [by rewrite Hnow'|].
      intros e. rewrite Hd'. frame. by tr_simpl.
    + (* inside the handler *)
      assert (step (EReturn (length pre)) w = Some (listener_return (length pre) l c w))
        as Hret by (simpl; rewrite Hl; simpl; by rewrite Hpc).
      assert (Reachable (listener_return (length pre) l c w)) as Hr1
        by (by eapply Reachable_step).
      assert (goroutines (listener_return (length pre) l c w) !! length pre
              = Some (at_pc l AtSelect)) as Hl1.
      { unfold listener_return. frame. apply list_lookup_insert_eq. by eapply lookup_lt_Some. }
      assert (Done (listener_return (length pre) l c w) (g_ctx (at_pc l AtSelect)) = true)
        as HD1.
      { apply step_mono in Hret as [? ?]. by eapply Done_mono. }
      pose proof (step_select_done _ (length pre) (at_pc l AtSelect) Hr1 Hl1 eq_refl HD1)
        as Hstep.
      edestruct (IH (pre ++ [at_pc l Exited])) as (w' & Hrun & Hr' & Hg' & Hc' & Hreg' & Hnow' & Hd');
        [by eapply Reachable_step| | |].
      { unfold listener_return. frame.
        rewrite list_insert_insert_eq, Hg, insert_middle, <- app_assoc. done. }
      { intros l' Hin. apply step_mono in Hstep as [? ?].
        eapply Done_mono; [done|done|]. by eapply Hkeep. }
      rewrite length_app, Nat.add_1_r in Hrun. exists w'.
      split; [cbn [app run]; rewrite Hret; cbn [mbind option_bind]; rewrite Hstep; exact Hrun|].
      split; [done|]. split; [by rewrite Hg', <- app_assoc|].
      unfold listener_return in *.
      split; [rewrite Hc'; by frame|]. split; [rewrite Hreg'; by frame|].
      split; [rewrite Hnow'; by frame|].
      intros e. rewrite Hd'. frame. by tr_simpl.
    + (* already gone *)
      edestruct (IH (pre ++ [l])) as (w' & Hrun & Hr' & Hg' & Hc' & Hreg' & Hnow' & Hd');
        [done|by rewrite Hg, <- app_assoc| |].
      { intros l' Hin. apply HD. by apply list_elem_of_further. }
      rewrite length_app, Nat.add_1_r in Hrun. exists w'.
      split; [done|]. split; [done|].
      split; [|done]. rewrite Hg', <- app_assoc. csimpl.
      by rewrite <- Hpc, at_pc_same.
Qed.

(** X1. Once the context of every listener is done, the listeners can all be
    brought to an end: letting each handler in flight return and each
    listener take the cancellation case of its [select], at most two steps a
    listener, leaves every listener exited and every WaitGroup at zero, so
    that [Wait] returns.  No further [HandleMessage] call is made on the way
    and what is queued on the channels stays there. *)
Theorem shutdown_is_always_possible (w : World) :
  Reachable w → (∀ l, l ∈ goroutines w → Done w (g_ctx l) = true) →
  ∃ w', run (wind_down 0 (goroutines w)) w = Some w' ∧
        goroutines w' = (λ l, at_pc l Exited) <$> goroutines w ∧
        (∀ r, WgWaitReturns r w' = true) ∧
        chans w' = chans w ∧
        (∀ e, delivered_to e (trace w') = delivered_to e (trace w)) ∧
        (length (wind_down 0 (goroutines w)) ≤ 2 * length (goroutines w))%nat.
Proof.
  intros Hr HD.
  destruct (wind_down_run (goroutines w) [] w Hr eq_refl HD)
    as (w' & Hrun & Hr' & Hg' & Hc' & _ & _ & Hd').
  exists w'. split; [done|]. split; [done|]. split; [|split; [done|split; [done|]]].
  - intros r. unfold WgWaitReturns. rewrite (wg_counts_running w' Hr' r), Hg'. simpl.
    rewrite count_zero; [done|].
    intros l [l0 [-> _]]%list_elem_of_fmap. by rewrite running_on_at_pc.
  - apply wind_down_length.
Qed.


(** X2. No child context leaks.  Every context a listener has derived for a
    call is in exactly one of two states: its [cancel] has run and no call
    uses it any more, or it is not cancelled and is the context of exactly
    one call in flight, derived from the context of the listener making that
    call. *)
Theorem child_contexts_are_released (w : World) (k : nat) :
  Reachable w → (k < next_id w)%nat →
  (Own k ∈ cancelled w ∧
   ∀ g l c, goroutines w !! g = Some l → in_flight_ctx l = Some c →
            ctx_id c ≠ Some (Own k)) ∨
  ((Own k ∉ cancelled w) ∧
   ∃ g l c, goroutines w !! g = Some l ∧ in_flight_ctx l = Some c ∧
            ctx_id c = Some (Own k) ∧ ctx_parent c = Some (g_ctx l) ∧
            ∀ g' l' c', goroutines w !! g' = Some l' → in_flight_ctx l' = Some c' →
                        ctx_id c' = Some (Own k) → g' = g).
Proof.
  intros Hr Hk. destruct (children_inv w Hr) as (I1 & I2 & I3 & I4).
  destruct (I4 k Hk) as [Hin|(g & l & c & Hl & Hc & Hid)].
  - left. split; [done|]. intros g l c Hl Hc Hid.
    destruct (I2 g l c Hl Hc) as (k' & d & -> & _ & Hnot).
    rewrite ctx_id_derive in Hid. by simplify_eq.
  - right. destruct (I2 g l c Hl Hc) as (k' & d & -> & _ & Hnot).
    rewrite ctx_id_derive in Hid. simplify_eq. split; [done|].
    exists g, l, (derive (g_ctx l) d (Own k)).
    split; [done|]. split; [done|]. split; [apply ctx_id_derive|].
    split; [apply ctx_parent_derive|].
    intros g' l' c' Hl' Hc' Hid'. eapply (I3 g' g); [done|done|done|done|].
    by rewrite Hid', ctx_id_derive.
Qed.

(** X3. The context a handler is running under is a child of its listener's
    context, it always has a deadline, and while the call is in flight it is
    done exactly when the listener's context is done or that deadline has
    passed: a cancellation of the scope reaches the handler, and nothing
    else ends its context early. *)
Theorem handler_context_follows_scope_and_deadline (w : World) (g : nat) (l : Goroutine)
    (c : Context) :
  Reachable w → goroutines w !! g = Some l → in_flight_ctx l = Some c →
  ctx_parent c = Some (g_ctx l) ∧
  (∃ d, Deadline c = Some d) ∧
  Done w c = Done w (g_ctx l) || expired w c.
Proof.
  intros Hr Hl Hc. destruct (children_inv w Hr) as (_ & I2 & _).
  destruct (I2 g l c Hl Hc) as (k & d & -> & _ & Hnot).
  split; [apply ctx_parent_derive|]. split; [rewrite derive_deadline; by eexists|].
  unfold expired. rewrite derive_deadline. unfold derive.
  destruct (Deadline (g_ctx l)) as [cur|] eqn:Hcur.
  - destruct (Z.ltb_spec cur d) as [Hlt|Hge]; simpl.
    + rewrite bool_decide_eq_false_2 by done. simpl.
      rewrite Z.min_l by lia. destruct (Z.leb_spec cur (now w)) as [Hle|Hgt].
      * rewrite (Deadline_Done w (g_ctx l) cur) by done. done.
      * by rewrite orb_false_r.
    + rewrite bool_decide_eq_false_2 by done. simpl.
      rewrite Z.min_r by lia. apply orb_comm.
  - simpl. rewrite bool_decide_eq_false_2 by done. simpl. apply orb_comm.
Qed.

Lemma Done_derive_parent w parent d id :
  Done w parent = true → Done w (derive parent d id) = true.
Proof.
  intros HD. destruct (derive_shape parent d id) as [-> | ->]; simpl; rewrite HD;
    by rewrite orb_true_r.
Qed.

(** X14. The timeout fires.  From the moment a listener calls
    [HandleMessage], and for as long as the handler has not returned, the
    listener stays inside that call under the same child context, and that
    context is done as soon as five seconds have passed since the call began,
    and as soon as the listener's own context is done. *)
Theorem handler_context_expires_with_the_timeout (w : World) (g : nat) (l : Goroutine)
    (p : option Message) (rest : list Item) :
  goroutines w !! g = Some l → g_pc l = AtSelect →
  chan w (g_ch l) = IMessagePtr p :: rest →
  ∃ w1 child,
    step (ESelectRecv g) w = Some w1 ∧ now w1 = now w ∧
    ∀ evs w2, run evs w1 = Some w2 → no_return g evs →
      goroutines w2 !! g = Some (at_pc l (InHandleMessage child p)) ∧
      (now w + DefaultExporterTimeout ≤ now w2 → Done w2 child = true) ∧
      (Done w2 (g_ctx l) = true → Done w2 child = true).
Proof.
  intros Hl Hpc Hch.
  exists (listener_recv g l (IMessagePtr p) rest w),
    (derive (g_ctx l) (now w + DefaultExporterTimeout) (Own (next_id w))).
  split; [by apply step_recv_ptr|]. rewrite listener_recv_ptr. cbn zeta.
  split; [by frame|].
  intros evs w2 Hrun Hno.
  edestruct (run_in_flight evs) as [Hl2 _]; [exact Hrun| | |exact Hno|].
  { frame. apply list_lookup_insert_eq. by eapply lookup_lt_Some. }
  { by simpl. }
  split; [done|]. split.
  - intros Hlate. eapply Deadline_Done; [apply derive_deadline|].
    destruct (Deadline (g_ctx l)); lia.
  - apply Done_derive_parent.
Qed.

(** *** Whole executions *)

Lemma received_by_app g tr1 tr2 :
  received_by g (tr1 ++ tr2) = received_by g tr1 ++ received_by g tr2.
Proof. apply omap_app. Qed.

Lemma warnings_by_app g tr1 tr2 :
  warnings_by g (tr1 ++ tr2) = warnings_by g tr1 ++ warnings_by g tr2.
Proof. apply omap_app. Qed.

Lemma warnings_for_app xs ys : warnings_for (xs ++ ys) = warnings_for xs ++ warnings_for ys.
Proof. apply omap_app. Qed.

Lemma received_by_start_actions g0 r g hs : received_by g0 (start_actions r g hs) = [].
Proof. by apply omap_start_actions. Qed.

Lemma warnings_by_start_actions g0 r g hs : warnings_by g0 (start_actions r g hs) = [].
Proof. by apply omap_start_actions. Qed.

Ltac log_simpl :=
  rewrite ?received_by_app, ?warnings_by_app, ?calls_by_app, ?warnings_for_app, ?pointers_app,
    ?received_by_start_actions, ?warnings_by_start_actions, ?calls_by_start_actions;
  cbn [received_by warnings_by calls_by warnings_for pointers omap list_omap];
  rewrite ?app_nil_r.

(** X4. What a listener logs and what it hands on are read off what it
    received: over any execution its warnings are, in order, one for each
    received item that is not a [*model.Message], naming the item's dynamic
    type, and its [HandleMessage] calls are, in order, the received
    [*model.Message] values. *)
Theorem log_and_calls_follow_the_received_items (w : World) (k : nat) :
  Reachable w →
  warnings_by k (trace w) = warnings_for (received_by k (trace w)) ∧
  calls_by k (trace w) = pointers (received_by k (trace w)).
Proof.
  induction 1 as [|w ev w' Hr [IHw IHc] Hstep]; [done|].
  step_inv Hstep; frame; log_simpl; try done.
  - destruct Hsr as (_ & _ & _ & _ & _ & _ & -> & _). by log_simpl.
  - case_decide; log_simpl; [|done]. rewrite IHw, IHc. by log_simpl.
  - case_decide; log_simpl; [|done]. rewrite IHw, IHc.
    log_simpl. unfold malformed in *. destruct m; try done; simplify_eq/=; by log_simpl.
Qed.


Lemma run_registry_prefix evs w w' :
  run evs w = Some w' → handlers (registry w) `prefix_of` handlers (registry w').
Proof.
  revert w. induction evs as [|ev evs IH]; intros w Hrun; simpl in Hrun.
  - by simplify_eq.
  - destruct (step ev w) as [w1|] eqn:Hstep; simpl in Hrun; [|done].
    etrans; [|by apply IH]. rewrite (step_registry _ _ _ Hstep). by apply prefix_app_r.
Qed.



Lemma pairs_of_prefix e hs1 hs2 :
  hs1 `prefix_of` hs2 → (pairs_of e hs1 ≤ pairs_of e hs2)%nat.
Proof. intros [k ->]. rewrite pairs_of_app. lia. Qed.

Lemma run_listeners_bound evs :
  ∀ w0 w e, run evs w0 = Some w →
    (pairs_of e (g_handler <$> goroutines w) ≤
     pairs_of e (g_handler <$> goroutines w0) + starts evs * pairs_of e (handlers (registry w)))%nat.
Proof.
  induction evs as [|ev evs IH]; intros w0 w e Hrun; simpl in Hrun.
  - simplify_eq. simpl. lia.
  - destruct (step ev w0) as [w1|] eqn:Hstep; simpl in Hrun; [|done].
    specialize (IH _ _ e Hrun). rewrite (step_handlers _ _ _ Hstep), pairs_of_app in IH.
    pose proof (pairs_of_prefix e _ _ (run_registry_prefix _ _ _ Hrun)) as Hmono.
    rewrite (step_registry _ _ _ Hstep), pairs_of_app in Hmono.
    assert (pairs_of e [] = 0%nat) as Hnil by done.
    destruct ev; simpl in *; rewrite ?Hnil in *; lia.
Qed.

(** X6. The calls in flight on an exporter never outnumber its listeners:
    their number is the number of its listeners that are inside
    [HandleMessage], and the process has at most one listener of the exporter
    for each call of [Start] and each registered pair that names it. *)
Theorem in_flight_bounded_by_listeners (evs : list Event) (w : World) (e : ExporterRef) :
  run evs init = Some w →
  in_flight e (trace w) = Z.of_nat (count (calling e) (goroutines w)) ∧
  (count (calling e) (goroutines w) ≤ count (serving e) (goroutines w))%nat ∧
  (count (serving e) (goroutines w) ≤ starts evs * pairs_of e (handlers (registry w)))%nat.
Proof.
  intros Hrun.
  assert (Reachable w) as Hr by (eapply run_reachable; [constructor|done]).
  split; [by apply in_flight_counts_calling|]. split; [apply calling_serving|].
  rewrite serving_pairs. by apply (run_listeners_bound evs init w e).
Qed.


Lemma run_register_all hs :
  ∀ w, ∃ w', run (register_all hs) w = Some w' ∧
    handlers (registry w') = handlers (registry w) ++ hs ∧
    goroutines w' = goroutines w ∧ trace w' = trace w ∧ wgs w' = wgs w ∧
    chans w' = chans w ∧ cancelled w' = cancelled w ∧ now w' = now w ∧
    next_id w' = next_id w.
Proof.
  induction hs as [|h hs IH]; intros w.
  - exists w. by rewrite app_nil_r.
  - destruct (IH (set_registry (fst (Register (registry w) (exporter h) (subscriptionCh h))) w))
      as (w' & Hrun & Hh & Hrest).
    exists w'. split; [done|]. split; [|done].
    rewrite Hh. simpl. rewrite <- app_assoc. by destruct h.
Qed.

(** X8. Registering the pairs [hs] on the default registerer, in order, and
    then calling [Start] gives one listener per pair, in the order of
    registration, each at its [select] on the channel and exporter of its
    pair, with the WaitGroup at the number of pairs.  With nothing
    registered, [Start] spawns nothing and leaves the WaitGroup at zero: the
    caller's [Wait] returns at once. *)
Theorem register_all_then_start (hs : list ExporterHandler) (ctx : Context)
    (wg : WaitGroupRef) :
  external ctx = true →
  ∃ w, run (register_all hs ++ [EStart ctx wg]) init = Some w ∧
       handlers (registry w) = hs ∧
       goroutines w = listener_of ctx wg <$> hs ∧
       trace w = start_actions wg 0 hs ∧
       wg_counter w wg = Z.of_nat (length hs) ∧
       (hs = [] → WgWaitReturns wg w = true).
Proof.
  intros Hext.
  destruct (run_register_all hs init)
    as (w1 & Hrun & Hh & Hg & Ht & Hwg & _).
  assert (wg_counter w1 wg = 0) as Hzero by (unfold wg_counter; by rewrite Hwg).
  destruct (start_range_ok ctx wg (handlers (registry w1)) w1) as [w Hsr]; [lia|].
  exists w. rewrite run_app, Hrun. cbn [mbind option_bind run step]. rewrite Hext.
  unfold Start. rewrite Hsr. split; [done|].
  apply start_range_Some in Hsr as (Hreg & _ & _ & _ & _ & Hg' & Ht' & Hc).
  assert (wg_counter w wg = Z.of_nat (length hs)) as Hcount.
  { rewrite Hc, decide_True, Hzero, Hh by done. simpl. lia. }
  split; [by rewrite Hreg, Hh|]. split; [by rewrite Hg', Hg, Hh|].
  split; [by rewrite Ht', Ht, Hg, Hh|]. split; [done|].
  intros ->. unfold WgWaitReturns. by rewrite Hcount.
Qed.

(** X9. The two nil values differ.  A nil pointer of type [*model.Message]
    passes the type assertion, so the exporter's [HandleMessage] is called
    with a nil message; the nil interface value fails it and is skipped with
    the warning that names its type as [<nil>]. *)
Theorem nil_pointer_is_handled_nil_interface_is_skipped (w : World) (g : nat)
    (l : Goroutine) (x : Item) (rest : list Item) :
  goroutines w !! g = Some l → g_pc l = AtSelect → chan w (g_ch l) = x :: rest →
  (x = IMessagePtr None →
   ∃ w1 child, step (ESelectRecv g) w = Some w1 ∧
     trace w1 = trace w ++ [ARecv g (g_ch l) (IMessagePtr None);
                            AWithTimeout g (g_ctx l) child;
                            AHandleMessage g (g_handler l) child None] ∧
     goroutines w1 !! g = Some (at_pc l (InHandleMessage child None))) ∧
  (x = INil →
   ∃ w1, step (ESelectRecv g) w = Some w1 ∧
     trace w1 = trace w ++ [ARecv g (g_ch l) INil;
                            AWarn g "Unexpected type <nil>, skipping item"] ∧
     goroutines w1 = goroutines w).
Proof.
  intros Hl Hpc Hch. split; intros ->.
  - eexists _, _. split; [rewrite (step_recv_ptr w g l None rest) by done;
                          by rewrite listener_recv_ptr|].
    split; [frame; by rewrite <- !app_assoc|].
    frame. apply list_lookup_insert_eq. by eapply lookup_lt_Some.
  - eexists. split; [by apply step_recv_malformed|].
    split; [frame; by rewrite <- app_assoc|]. done.
Qed.


(** *** The laws on the sample schedules *)

(** X1, on [sched_cancel_in_flight]: the handler returns, the listener takes
    the cancellation case, and [Wait] can return. *)
Lemma shutdown_witness :
  Reachable (world_after sched_cancel_in_flight) ∧
  ∃ w', run [EReturn 0; ESelectDone 0] (world_after sched_cancel_in_flight) = Some w' ∧
        WgWaitReturns 0 w' = true.
Proof.
  assert (Reachable (world_after sched_cancel_in_flight)) as Hr
    by (apply world_after_reachable; vm_compute; reflexivity).
  split; [exact Hr|].
  destruct (shutdown_is_always_possible (world_after sched_cancel_in_flight) Hr)
    as (w' & Hrun & _ & Hwait & _).
  - assert (goroutines (world_after sched_cancel_in_flight)
            = [at_pc (listener_of root_scope 0 {| exporter := 7; subscriptionCh := 3 |})
                 (InHandleMessage (timerCtx (Own 0) 5000000000 root_scope)
                    (Some sample_message))]) as Hg by (vm_compute; reflexivity).
    rewrite Hg. intros l Hin. apply list_elem_of_singleton in Hin. rewrite Hin.
    vm_compute. reflexivity.
  - exists w'. split; [exact Hrun|]. apply Hwait.
Defined.

(** X2, on [sched_cancel_in_flight]. *)
Lemma child_contexts_witness :
  Reachable (world_after sched_cancel_in_flight) ∧
  (0 < next_id (world_after sched_cancel_in_flight))%nat ∧
  ((Own 0 ∈ cancelled (world_after sched_cancel_in_flight) ∧
    ∀ g l c, goroutines (world_after sched_cancel_in_flight) !! g = Some l →
             in_flight_ctx l = Some c → ctx_id c ≠ Some (Own 0)) ∨
   ((Own 0 ∉ cancelled (world_after sched_cancel_in_flight)) ∧
    ∃ g l c, goroutines (world_after sched_cancel_in_flight) !! g = Some l ∧
             in_flight_ctx l = Some c ∧ ctx_id c = Some (Own 0) ∧
             ctx_parent c = Some (g_ctx l) ∧
             ∀ g' l' c', goroutines (world_after sched_cancel_in_flight) !! g' = Some l' →
                         in_flight_ctx l' = Some c' → ctx_id c' = Some (Own 0) → g' = g)).
Proof.
  assert (Reachable (world_after sched_cancel_in_flight)) as Hr
    by (apply world_after_reachable; vm_compute; reflexivity).
  assert (0 < next_id (world_after sched_cancel_in_flight))%nat as Hk
    by (vm_compute; apply le_n).
  split; [exact Hr|]. split; [exact Hk|].
  exact (child_contexts_are_released _ 0 Hr Hk).
Defined.

(** X3, on [sched_cancel_in_flight]: the scope is cancelled while the
    handler runs, and the handler's context is done. *)
Lemma handler_context_witness :
  Reachable (world_after sched_cancel_in_flight) ∧
  goroutines (world_after sched_cancel_in_flight) !! 0%nat
    = Some (at_pc (listener_of root_scope 0 {| exporter := 7; subscriptionCh := 3 |})
              (InHandleMessage (timerCtx (Own 0) 5000000000 root_scope)
                 (Some sample_message))) ∧
  Done (world_after sched_cancel_in_flight) (timerCtx (Own 0) 5000000000 root_scope) = true.
Proof.
  assert (Reachable (world_after sched_cancel_in_flight)) as Hr
    by (apply world_after_reachable; vm_compute; reflexivity).
  assert (goroutines (world_after sched_cancel_in_flight) !! 0%nat
    = Some (at_pc (listener_of root_scope 0 {| exporter := 7; subscriptionCh := 3 |})
              (InHandleMessage (timerCtx (Own 0) 5000000000 root_scope)
                 (Some sample_message)))) as Hl by (vm_compute; reflexivity).
  split; [exact Hr|]. split; [exact Hl|].
  destruct (handler_context_follows_scope_and_deadline _ 0 _
              (timerCtx (Own 0) 5000000000 root_scope) Hr Hl eq_refl) as (_ & _ & HD).
  etrans; [exact HD|]. vm_compute. reflexivity.
Defined.

(** X4, on [sched_mixed]. *)
Lemma log_and_calls_witness :
  Reachable (world_after sched_mixed) ∧
  received_by 0 (trace (world_after sched_mixed))
    = [IMessageVal sample_message; INil; IMessagePtr (Some sample_message); IOther "string"] ∧
  warnings_by 0 (trace (world_after sched_mixed))
    = ["Unexpected type model.Message, skipping item";
       "Unexpected type <nil>, skipping item";
       "Unexpected type string, skipping item"] ∧
  calls_by 0 (trace (world_after sched_mixed)) = [Some sample_message].
Proof.
  assert (Reachable (world_after sched_mixed)) as Hr
    by (apply world_after_reachable; vm_compute; reflexivity).
  split; [exact Hr|]. split; [vm_compute; reflexivity|].
  destruct (log_and_calls_follow_the_received_items _ 0 Hr) as [Hw Hc].
  split; [etrans; [exact Hw|]; vm_compute; reflexivity|].
  etrans; [exact Hc|]. vm_compute. reflexivity.
Defined.


(** X6, on [sched_started_twice]: one pair, two calls of [Start], two
    listeners. *)
Lemma in_flight_bound_witness :
  run sched_started_twice init = Some (world_after sched_started_twice) ∧
  in_flight 7 (trace (world_after sched_started_twice)) = 2 ∧
  (count (serving 7) (goroutines (world_after sched_started_twice)) ≤ 2 * 1)%nat.
Proof.
  assert (run sched_started_twice init = Some (world_after sched_started_twice)) as Hrun
    by (vm_compute; reflexivity).
  split; [exact Hrun|].
  destruct (in_flight_bounded_by_listeners _ _ 7 Hrun) as (Heq & _ & Hle).
  split; [etrans; [exact Heq|]; vm_compute; reflexivity|]. exact Hle.
Defined.


(** X8, on two pairs. *)
Lemma register_all_witness :
  external root_scope = true ∧
  ∃ w, run [ERegister 7 3; ERegister 8 4; EStart root_scope 0] init = Some w ∧
       goroutines w =
         [ listener_of root_scope 0 {| exporter := 7; subscriptionCh := 3 |};
           listener_of root_scope 0 {| exporter := 8; subscriptionCh := 4 |} ] ∧
       wg_counter w 0 = 2.
Proof.
  split; [reflexivity|].
  destruct (register_all_then_start
              [ {| exporter := 7; subscriptionCh := 3 |};
                {| exporter := 8; subscriptionCh := 4 |} ] root_scope 0 eq_refl)
    as (w & Hrun & _ & Hg & _ & Hwg & _).
  exists w. split; [exact Hrun|]. split; [exact Hg|exact Hwg].
Defined.

(** X9, on a nil pointer and on the nil interface value sent to a started
    listener. *)
Lemma nil_values_witness :
  (∃ w1, step (ESelectRecv 0) (world_after (sched_started ++ [ESend 3 (IMessagePtr None)]))
           = Some w1 ∧ calls_by 0 (trace w1) = [None]) ∧
  (∃ w1, step (ESelectRecv 0) (world_after (sched_started ++ [ESend 3 INil])) = Some w1 ∧
         warnings_by 0 (trace w1) = ["Unexpected type <nil>, skipping item"] ∧
         calls_by 0 (trace w1) = []).
Proof.
  split.
  - destruct (nil_pointer_is_handled_nil_interface_is_skipped
                (world_after (sched_started ++ [ESend 3 (IMessagePtr None)])) 0
                (listener_of root_scope 0 {| exporter := 7; subscriptionCh := 3 |})
                (IMessagePtr None) [])
      as [Hptr _]; [vm_compute; reflexivity | reflexivity | vm_compute; reflexivity |].
    destruct (Hptr eq_refl) as (w1 & child & Hstep & Htr & _).
    exists w1. split; [exact Hstep|]. rewrite Htr. vm_compute. reflexivity.
  - destruct (nil_pointer_is_handled_nil_interface_is_skipped
                (world_after (sched_started ++ [ESend 3 INil])) 0
                (listener_of root_scope 0 {| exporter := 7; subscriptionCh := 3 |})
                INil [])
      as [_ Hnil]; [vm_compute; reflexivity | reflexivity | vm_compute; reflexivity |].
    destruct (Hnil eq_refl) as (w1 & Hstep & Htr & _).
    exists w1. split; [exact Hstep|]. rewrite Htr. split; vm_compute; reflexivity.
Defined.


(** X14, on [sched_pointer]: the message is received, five seconds pass, and
    the context of the running handler is done. *)
Lemma handler_context_expires_witness :
  goroutines (world_after sched_pointer) !! 0%nat
    = Some (listener_of root_scope 0 {| exporter := 7; subscriptionCh := 3 |}) ∧
  ∃ w1 child w2,
    step (ESelectRecv 0) (world_after sched_pointer) = Some w1 ∧
    run [ETick (5 * Second)] w1 = Some w2 ∧
    goroutines w2 !! 0%nat
      = Some (at_pc (listener_of root_scope 0 {| exporter := 7; subscriptionCh := 3 |})
                (InHandleMessage child (Some sample_message))) ∧
    Done w2 child = true.
Proof.
  assert (goroutines (world_after sched_pointer) !! 0%nat
          = Some (listener_of root_scope 0 {| exporter := 7; subscriptionCh := 3 |}))
    as Hl by (vm_compute; reflexivity).
  split; [exact Hl|].
  destruct (handler_context_expires_with_the_timeout
              (world_after sched_pointer) 0
              (listener_of root_scope 0 {| exporter := 7; subscriptionCh := 3 |})
              (Some sample_message) [] Hl)
    as (w1 & child & Hstep & Hnow & Hlater);
    [reflexivity | vm_compute; reflexivity |].
  exists w1, child, (advance (5 * Second) w1).
  split; [exact Hstep|]. split; [reflexivity|].
  destruct (Hlater [ETick (5 * Second)] (advance (5 * Second) w1) eq_refl)
    as (Hl2 & Hexp & _).
  { apply Forall_cons. split; [discriminate|apply Forall_nil_2]. }
  split; [exact Hl2|].
  apply Hexp. simpl. rewrite Hnow. vm_compute. discriminate.
Defined.

End RegistryLaws.

(** * Facts about the test doubles and the tests' own code *)

Module DoubleFacts.
Import Model Global Watch.

(** *** The two doubles' [DockerEvents] *)

Lemma msgs_of_send_msg e ch x c :
  msgs_of (send_msg ch x e) c = if decide (c = ch) then msgs_of e ch ++ [x] else msgs_of e c.
Proof.
  unfold msgs_of, send_msg, set_msgs; simpl.
  case_decide; subst; [by rewrite lookup_insert_eq | by rewrite lookup_insert_ne].
Qed.

Lemma healthy_call d o e :
  Healthy_DockerEvents d o e =
    (d,
     send_msg (next_chan e) (container_message "die" {[ "exitCode" := "1" ]})
       (send_msg (next_chan e) (container_message "restart" ∅)
          (send_msg (next_chan e) (container_message "start" ∅)
             (snd (make_err_chan (snd (make_msg_chan e)))))),
     (Some (next_chan e), Some (S (next_chan e)), None)).
Proof. done. Qed.

Lemma healthy_call_msgs d o e ch :
  msgs_of (snd (fst (Healthy_DockerEvents d o e))) ch =
  if decide (ch = next_chan e) then healthy_script else msgs_of e ch.
Proof.
  rewrite healthy_call. cbn [fst snd]. rewrite !msgs_of_send_msg.
  case_decide; [|unfold msgs_of; simpl; by rewrite lookup_insert_ne].
  rewrite !decide_True by done. unfold msgs_of at 1. simpl.
  by rewrite lookup_insert_eq.
Qed.

Lemma healthy_call_errs d o e ch :
  errs_of (snd (fst (Healthy_DockerEvents d o e))) ch =
  if decide (ch = S (next_chan e)) then [] else errs_of e ch.
Proof.
  rewrite healthy_call. unfold errs_of. simpl.
  case_decide; subst; [by rewrite lookup_insert_eq | by rewrite lookup_insert_ne].
Qed.

Lemma healthy_call_frame d o e :
  next_chan (snd (fst (Healthy_DockerEvents d o e))) = S (S (next_chan e)) ∧
  sleepers (snd (fst (Healthy_DockerEvents d o e))) = sleepers e ∧
  emit_chans (snd (fst (Healthy_DockerEvents d o e))) = emit_chans e ∧
  clock (snd (fst (Healthy_DockerEvents d o e))) = clock e.
Proof. done. Qed.

(** X11. The healthy double replays its script on every call: each call of
    [DockerEvents], whatever the options, makes two channels of its own,
    queues [start], [restart] and [die] with exit code 1 on the first, sends
    nothing on the second and returns no error; a second call leaves the
    channels of the first as they were. *)
Theorem healthy_double_replays_on_every_call (d : DockerMockAdapterHealthy)
    (o1 o2 : EventsOptions) (e : Env) :
  ∃ m1 r1 e1 m2 r2 e2,
    Healthy_DockerEvents d o1 e = (d, e1, (Some m1, Some r1, None)) ∧
    Healthy_DockerEvents d o2 e1 = (d, e2, (Some m2, Some r2, None)) ∧
    NoDup [m1; r1; m2; r2] ∧
    msgs_of e1 m1 = healthy_script ∧ errs_of e1 r1 = [] ∧
    msgs_of e2 m2 = healthy_script ∧ errs_of e2 r2 = [] ∧
    msgs_of e2 m1 = healthy_script ∧ errs_of e2 r1 = [] ∧
    (∀ ch, ch ≠ m1 → ch ≠ m2 → msgs_of e2 ch = msgs_of e ch) ∧
    (∀ ch, ch ≠ r1 → ch ≠ r2 → errs_of e2 ch = errs_of e ch) ∧
    sleepers e2 = sleepers e ∧ emit_chans e2 = emit_chans e.
Proof.
  exists (next_chan e), (S (next_chan e)), (snd (fst (Healthy_DockerEvents d o1 e))),
    (S (S (next_chan e))), (S (S (S (next_chan e)))),
    (snd (fst (Healthy_DockerEvents d o2 (snd (fst (Healthy_DockerEvents d o1 e)))))).
  pose proof (healthy_call_frame d o1 e) as (Hn & Hs & Hem & _).
  pose proof (healthy_call_frame d o2 (snd (fst (Healthy_DockerEvents d o1 e))))
    as (_ & Hs2 & Hem2 & _).
  split; [done|]. split; [done|].
  split.
  { repeat (apply NoDup_cons; split; [rewrite ?elem_of_cons, elem_of_nil; lia|]).
    apply NoDup_nil_2. }
  rewrite !healthy_call_msgs, !healthy_call_errs, !Hn.
  split; [by rewrite decide_True|]. split; [by rewrite decide_True|].
  split; [by rewrite decide_True|]. split; [by rewrite decide_True|].
  split; [rewrite decide_False by lia; by rewrite decide_True|].
  split; [rewrite decide_False by lia; by rewrite decide_True|].
  split.
  { intros ch H1 H2. rewrite !healthy_call_msgs, Hn. by rewrite !decide_False. }
  split.
  { intros ch H1 H2. rewrite !healthy_call_errs, Hn. by rewrite !decide_False. }
  split; [by rewrite Hs2, Hs|by rewrite Hem2, Hem].
Qed.

Lemma error_call_first d o e :
  once d = false →
  Error_DockerEvents d o e =
    ({| once := true; msgch := Some (next_chan e); errch := Some (S (next_chan e)) |},
     go_after (1 * Second) (next_chan e) (container_message "restart" ∅)
       (send_err (S (next_chan e)) "mock docker adapter error"
          (snd (make_err_chan (snd (make_msg_chan e))))),
     (Some (next_chan e), Some (S (next_chan e)), None)).
Proof. unfold Error_DockerEvents. by intros ->. Qed.

Lemma error_call_again d o e :
  once d = true → Error_DockerEvents d o e = (d, e, (msgch d, errch d, None)).
Proof. unfold Error_DockerEvents. by intros ->. Qed.

(** X10. The failing double fails once.  Its first [DockerEvents] call makes
    the two channels, queues the one error on the error channel, and starts
    the goroutine that sends [restart] on the message channel a second
    later; every later call, whatever the options and whatever has happened
    since, returns the same two channels and does nothing else: no second
    error, no second delayed message. *)
Theorem error_double_fails_once (d : DockerMockAdapterError) (o : EventsOptions) (e : Env) :
  once d = false →
  ∃ m r d1 e1,
    Error_DockerEvents d o e = (d1, e1, (Some m, Some r, None)) ∧
    m ≠ r ∧ msgs_of e1 m = [] ∧ errs_of e1 r = ["mock docker adapter error"] ∧
    sleepers e1 = sleepers e ++ [(clock e + 1 * Second, m, container_message "restart" ∅)] ∧
    (∀ ch, ch ≠ m → msgs_of e1 ch = msgs_of e ch) ∧
    (∀ ch, ch ≠ r → errs_of e1 ch = errs_of e ch) ∧
    emit_chans e1 = emit_chans e ∧
    ∀ o' e', Error_DockerEvents d1 o' e' = (d1, e', (Some m, Some r, None)).
Proof.
  intros Honce. eexists _, _, _, _. split; [by apply error_call_first|].
  split; [lia|].
  split; [unfold msgs_of; simpl; by rewrite lookup_insert_eq|].
  split.
  { unfold go_after, send_err, set_sleepers, set_errs, errs_of. simpl.
    rewrite lookup_insert_eq. simpl. by rewrite lookup_insert_eq. }
  split; [done|].
  split; [intros ch Hne; unfold msgs_of; simpl; by rewrite lookup_insert_ne|].
  split; [intros ch Hne; unfold errs_of; simpl; by rewrite !lookup_insert_ne|].
  split; [done|]. intros o' e'. by apply error_call_again.
Qed.

(** *** [overrideDockerAdapter] *)

Lemma Utils_eta {A} (u : Utils A) : {| DefaultDockerAdapter := DefaultDockerAdapter u |} = u.
Proof. by destruct u. Qed.

Lemma override_all_app {A} (ms1 ms2 : list (string * A)) u :
  override_all (ms1 ++ ms2) u =
  (fst (override_all ms2 (fst (override_all ms1 u))),
   snd (override_all ms1 u) ++ snd (override_all ms2 (fst (override_all ms1 u)))).
Proof.
  revert u. induction ms1 as [|[url mock] ms1 IH]; intros u; simpl.
  - by destruct (override_all ms2 u).
  - rewrite IH. by destruct (override_all ms1 _).
Qed.

(** X12. [overrideDockerAdapter] and the function it returns are a round
    trip.  The call installs the mock, whatever [url] is; the returned
    function puts back the adapter that was installed at the time of the
    call, whatever is installed when it runs.  Overrides made one after the
    other and undone last in, first out, as deferred calls are, leave the
    adapter that was installed before the first of them. *)
Theorem override_is_undone_by_its_restore {A : Type} (mocks : list (string * A))
    (u : Utils A) :
  (∀ url mock, fst (overrideDockerAdapter url mock u) = {| DefaultDockerAdapter := mock |}) ∧
  (∀ url mock u', snd (overrideDockerAdapter url mock u) u' = u) ∧
  DefaultDockerAdapter (fst (override_all mocks u))
    = default (DefaultDockerAdapter u) (snd <$> last mocks) ∧
  length (snd (override_all mocks u)) = length mocks ∧
  run_deferred (snd (override_all mocks u)) (fst (override_all mocks u)) = u.
Proof.
  split; [done|]. split; [intros; apply Utils_eta|].
  split; [|split].
  - revert u. induction mocks as [|[url mock] mocks IH]; intros u; [done|].
    simpl. specialize (IH {| DefaultDockerAdapter := mock |}).
    destruct (override_all mocks _) as [u2 undos]. simpl in *. rewrite IH.
    rewrite last_cons. by destruct (last mocks).
  - revert u. induction mocks as [|[url mock] mocks IH]; intros u; [done|].
    simpl. specialize (IH {| DefaultDockerAdapter := mock |}).
    destruct (override_all mocks _) as [u2 undos]. simpl in *. by rewrite IH.
  - revert u. induction mocks as [|[url mock] mocks IH]; intros u; [done|].
    simpl. specialize (IH {| DefaultDockerAdapter := mock |}).
    destruct (override_all mocks _) as [u2 undos]. simpl in *. apply Utils_eta.
Qed.

(** *** What the two tests assert *)

Lemma subtest_true ev r :
  subtest ev r = true ↔ ∃ m, r = Got (IMessageVal m) ∧ Type_ m = MessageType_event.
Proof.
  split.
  - destruct r as [[| | m |]| |]; unfold subtest; simpl; try done.
    rewrite bool_decide_eq_true. intros Hm. by exists m.
  - intros (m & -> & Hm). unfold subtest. simpl. by rewrite bool_decide_eq_true.
Qed.

Lemma subtest_name ev ev' r : subtest ev r = subtest ev' r.
Proof. done. Qed.

(** X13. The loop of subtests checks the shape of what arrives, not the
    names.  Given one outcome of the [select] per expected event, the test
    passes exactly when every outcome is a received [model.Message] value of
    type event: a timeout, a closed channel, a pointer or any other value
    fails it, and neither the names in [expEvents] nor the name, time or body
    of a message are looked at, so any other list of as many expected events
    gives the same verdict. *)
Theorem subtests_check_shape_not_names (expEvents : list string)
    (outcomes : list Received) :
  length outcomes = length expEvents →
  (run_subtests expEvents outcomes = true ↔
   Forall (λ r, ∃ m, r = Got (IMessageVal m) ∧ Type_ m = MessageType_event) outcomes) ∧
  (∀ expEvents' : list string,
     length expEvents' = length expEvents →
     run_subtests expEvents' outcomes = run_subtests expEvents outcomes).
Proof.
  revert outcomes. induction expEvents as [|ev evs IH]; intros [|r rs] Hlen; try done.
  - split; [split; [intros; apply Forall_nil_2|done]|].
    by intros [|??] ?.
  - simpl in Hlen. injection Hlen as Hlen.
    destruct (IH rs Hlen) as [IH1 IH2]. split.
    + simpl. rewrite andb_true_iff, Forall_cons, subtest_true, IH1. done.
    + intros [|ev' evs'] Hlen'; [done|]. simpl in Hlen'. injection Hlen' as Hlen'.
      simpl. by rewrite (IH2 evs').
Qed.

(** X13, on four messages that are all named [agent.node.down]: the happy
    test passes. *)
Lemma subtests_witness :
  length (replicate 4 (Got (IMessageVal
            {| Type_ := MessageType_event; Name := AgentNodeDownName;
               Timestamp := 0; Body := "" |}))) = length happy_expEvents ∧
  run_subtests happy_expEvents
    (replicate 4 (Got (IMessageVal
       {| Type_ := MessageType_event; Name := AgentNodeDownName;
          Timestamp := 0; Body := "" |}))) = true.
Proof.
  split; [reflexivity|].
  apply (proj2 (proj1 (subtests_check_shape_not_names happy_expEvents
                         (replicate 4 (Got (IMessageVal
                            {| Type_ := MessageType_event; Name := AgentNodeDownName;
                               Timestamp := 0; Body := "" |}))) eq_refl))).
  repeat (apply Forall_cons; split; [eexists; split; reflexivity|]).
  apply Forall_nil_2.
Defined.

(** X10, on the double as [TestContainerWatch_error] makes it. *)
Lemma error_double_witness :
  once {| once := false; msgch := None; errch := None |} = false ∧
  ∃ d1 e1,
    Error_DockerEvents {| once := false; msgch := None; errch := None |}
      {| Filters := [] |} env0 = (d1, e1, (Some 0%nat, Some 1%nat, None)) ∧
    errs_of e1 1 = ["mock docker adapter error"] ∧
    Error_DockerEvents d1 {| Filters := [] |} e1 = (d1, e1, (Some 0%nat, Some 1%nat, None)).
Proof.
  split; [reflexivity|].
  destruct (error_double_fails_once {| once := false; msgch := None; errch := None |}
              {| Filters := [] |} env0 eq_refl)
    as (m & r & d1 & e1 & Hcall & _ & _ & Herr & _ & _ & _ & _ & Hagain).
  injection Hcall as <- <- <- <-.
  eexists _, _. split; [reflexivity|]. split; [exact Herr|]. apply Hagain.
Defined.

End DoubleFacts.
